(** * Storage core of astria-indexer: identity resolution, aggregate updates,
      rollback, retention, the unit of work, the statistics series
      queries of [internal/storage/postgres/stats.go], the action queries
      of [internal/storage/postgres/action.go] and the genesis constants. *)

From Stdlib Require Import ZArith Ascii String Strings.Byte.
From stdpp Require Import base list sets.

Open Scope Z_scope.

#[global] Instance byte_eq_dec : EqDecision Byte.byte := Byte.byte_eq_dec.

(** [pkgTypes.Level] is an int64 block height. *)
Abbreviation Level := Z (only parsing).

(** Errors surfaced to the orchestrator (spec, section 7). *)
Inductive StorageError :=
| ValidationError
| NotFoundError
| ConflictError
| UnavailableError.

(** [T, error] results: [inl] is the error, [inr] the value. *)
Abbreviation Result A := (sum StorageError A).

(* ------------------------------------------------------------------ *)
(** ** Data model (spec, section 3) *)

Module Address.
(** [storage.Address]: numbers are int64 columns. *)
Record t := mk {
  Id : N;
  Height : Level;
  Hash : list Byte.byte;
  Nonce : Z;
  ActionsCount : Z;
  SignedTxCount : Z
}.

(** Writing a resolved surrogate id back into a candidate. *)
Definition with_id (a : t) (i : N) : t :=
  mk i a.(Height) a.(Hash) a.(Nonce) a.(ActionsCount) a.(SignedTxCount).
End Address.

(** The [address] table: its rows and the serial sequence of its ids. *)
Record AddressTable := mkAddressTable {
  rows : list Address.t;
  next_id : N
}.

(* ------------------------------------------------------------------ *)
(** ** Identity resolver: SaveAddresses (spec, section 4.2) *)

Definition find_by_hash (rs : list Address.t) (h : list Byte.byte)
  : option Address.t :=
  List.find (fun r => bool_decide (Address.Hash r = h)) rs.

(** Modelled from the spec: [Transaction.SaveAddresses] (transaction.go,
    not among the sources). Candidates are resolved by their natural
    identity, the address hash: a hash already stored (by a prior call or
    by an earlier candidate of this batch) only writes the stored row's id
    back into the candidate; a hash not stored yet gets the next surrogate
    id, exactly one row is inserted for it, and the count of genuinely new
    rows grows by one. Returns the table, the candidates with their ids
    back-filled (the in-place mutation of the Go pointers) and the count. *)
Fixpoint SaveAddresses (tbl : AddressTable) (cs : list Address.t)
  : AddressTable * list Address.t * N :=
  match cs with
  | [] => (tbl, [], 0%N)
  | c :: cs' =>
      match find_by_hash tbl.(rows) c.(Address.Hash) with
      | Some r =>
          let '(tbl', out, n) := SaveAddresses tbl cs' in
          (tbl', Address.with_id c r.(Address.Id) :: out, n)
      | None =>
          let c' := Address.with_id c tbl.(next_id) in
          let '(tbl', out, n) :=
            SaveAddresses (mkAddressTable (tbl.(rows) ++ [c'])
                                          (N.succ tbl.(next_id))) cs' in
          (tbl', c' :: out, N.succ n)
      end
  end.

(** Separate calls, each in its own unit of work, one after the other:
    the final table and, per call, the resolved candidates and the count. *)
Fixpoint SaveAddressesCalls (tbl : AddressTable) (bs : list (list Address.t))
  : AddressTable * list (list Address.t * N) :=
  match bs with
  | [] => (tbl, [])
  | b :: bs' =>
      let '(tbl1, out, n) := SaveAddresses tbl b in
      let '(tbl2, outs) := SaveAddressesCalls tbl1 bs' in
      (tbl2, (out, n) :: outs)
  end.

(** The hashes of a list of candidates that are genuinely new with respect
    to the hashes [seen] (and to the earlier candidates), in order. *)
Fixpoint fresh_hashes (seen : list (list Byte.byte)) (l : list (list Byte.byte))
  : list (list Byte.byte) :=
  match l with
  | [] => []
  | h :: t =>
      if decide (h ∈ seen) then fresh_hashes seen t
      else h :: fresh_hashes (seen ++ [h]) t
  end.

Definition hashes (rs : list Address.t) : list (list Byte.byte) :=
  map Address.Hash rs.

Module Tx.
Record t := mk {
  Id : N; Height : Level; Time : Z; Position : Z; Status : string;
  Hash : list Byte.byte; SignerId : N
}.
End Tx.

Module Action.
(** [Type_] is the Go field [Type], a Rocq keyword. *)
Record t := mk {
  Id : N; Height : Level; Time : Z; Position : Z; Type_ : string;
  TxId : N; Data : string
}.
End Action.

Module Validator.
Record t := mk {
  Id : N; Height : Level; Address : string; PubkeyType : string;
  PubKey : list Byte.byte; Power : Z
}.
End Validator.

Module Rollup.
Record t := mk {
  Id : N; AstriaId : list Byte.byte; FirstHeight : Level;
  ActionsCount : Z; Size : Z; BridgeAddressId : N
}.
End Rollup.

Module RollupAction.
Record t := mk { RollupId : N; ActionId : N; Height : Level }.
End RollupAction.

Module RollupAddress.
Record t := mk { RollupId : N; AddressId : N; Height : Level }.
End RollupAddress.

Module AddressAction.
Record t := mk { AddressId : N; ActionId : N; ActionType : string; Height : Level }.
End AddressAction.

Module BlockSignature.
Record t := mk { ValidatorId : N; Height : Level; Time : Z }.
End BlockSignature.

Module BalanceUpdate.
Record t := mk { Height : Level; AddressId : N; Currency : string; Update : Z }.
End BalanceUpdate.

Module Balance.
(** [Id] is the owning address id. *)
Record t := mk { Id : N; Currency : string; Total : Z }.
End Balance.

(** The provenance height of a row: the sole rollback discriminant. *)
Class HasHeight (A : Type) := height_of : A -> Level.

#[global] Instance address_height : HasHeight Address.t := Address.Height.
#[global] Instance tx_height : HasHeight Tx.t := Tx.Height.
#[global] Instance action_height : HasHeight Action.t := Action.Height.
#[global] Instance rollup_height : HasHeight Rollup.t := Rollup.FirstHeight.
#[global] Instance rollup_action_height : HasHeight RollupAction.t := RollupAction.Height.
#[global] Instance rollup_address_height : HasHeight RollupAddress.t := RollupAddress.Height.
#[global] Instance address_action_height : HasHeight AddressAction.t := AddressAction.Height.
#[global] Instance block_signature_height : HasHeight BlockSignature.t := BlockSignature.Height.
#[global] Instance balance_update_height : HasHeight BalanceUpdate.t := BalanceUpdate.Height.

(* ------------------------------------------------------------------ *)
(** ** Entity store and rollback engine (spec, sections 4.1 and 4.4) *)

(** Modelled from the spec: the plain-append [Save*] operations of
    transaction.go for kinds without a surrogate id (the link rows): the
    batch is appended to the table as one bulk write. *)
Definition SaveRows {A : Type} (tbl batch : list A) : list A := tbl ++ batch.

Definition SaveRollupActions := SaveRows (A := RollupAction.t).
Definition SaveRollupAddresses := SaveRows (A := RollupAddress.t).
Definition SaveAddressActions := SaveRows (A := AddressAction.t).

(** Modelled from the spec: the height-keyed [Rollback*] operations of
    transaction.go ([DELETE ... WHERE height = ? RETURNING *]): the rows
    stamped with the height are deleted and returned, together with the
    remaining table. A height with no rows is not an error. *)
Definition RollbackByHeight {A : Type} `{HasHeight A} (tbl : list A) (h : Level)
  : Result (list A * list A) :=
  inr (List.filter (fun r => height_of r =? h) tbl,
       List.filter (fun r => negb (height_of r =? h)) tbl).

Definition RollbackTxs := RollbackByHeight (A := Tx.t).
Definition RollbackActions := RollbackByHeight (A := Action.t).
Definition RollbackRollups := RollbackByHeight (A := Rollup.t).
Definition RollbackRollupActions := RollbackByHeight (A := RollupAction.t).
Definition RollbackAddressActions := RollbackByHeight (A := AddressAction.t).

(** Modelled from the spec: [RollbackRollupAddresses] and
    [RollbackBlockSignatures] delete the rows stamped with the height but
    return no rows (the spec's table gives them no return value; the tests
    call them as [err = tx.RollbackRollupAddresses(ctx, 7316)]): [inr]
    carries only the table after the delete. *)
Definition RollbackHeightNoReturn {A : Type} `{HasHeight A} (tbl : list A) (h : Level)
  : Result (list A) :=
  inr (List.filter (fun r => negb (height_of r =? h)) tbl).

Definition RollbackRollupAddresses := RollbackHeightNoReturn (A := RollupAddress.t).
Definition RollbackBlockSignatures := RollbackHeightNoReturn (A := BlockSignature.t).
Definition RollbackBalanceUpdates := RollbackByHeight (A := BalanceUpdate.t).


(** Modelled from the spec: [RollbackValidators] deletes the validators
    whose creation height is greater than the given height. *)
Definition RollbackValidators (tbl : list Validator.t) (h : Level)
  : Result (list Validator.t) :=
  inr (List.filter (fun v => Validator.Height v <=? h) tbl).


(* ------------------------------------------------------------------ *)
(** ** Retention manager (spec, section 4.5) *)

Section Retention.
(** The fixed retention window, in blocks. *)
Variable window : Z.

(** Modelled from the spec: [RetentionBlockSignatures] deletes the
    signatures older than the window measured backward from the
    boundary. *)
Definition RetentionBlockSignatures (tbl : list BlockSignature.t) (h : Level)
  : Result (list BlockSignature.t) :=
  inr (List.filter (fun s => negb (BlockSignature.Height s <? h - window)) tbl).
End Retention.

(* ------------------------------------------------------------------ *)
(** ** Aggregate updater (spec, section 4.3) *)

(** Modelled from the spec: one row of [UpdateAddresses]: counts are
    deltas added to the stored values, the nonce is overwritten. *)
Definition apply_address_update (x u : Address.t) : Address.t :=
  Address.mk x.(Address.Id) x.(Address.Height) x.(Address.Hash)
    u.(Address.Nonce)
    (x.(Address.ActionsCount) + u.(Address.ActionsCount))
    (x.(Address.SignedTxCount) + u.(Address.SignedTxCount)).

(** Modelled from the spec: [UpdateAddresses]: each input row updates the
    stored row with its surrogate id ([UPDATE ... WHERE id = ?]); an id
    with no stored row is a not-found error, which aborts the call. *)
Fixpoint UpdateAddresses (tbl : AddressTable) (us : list Address.t)
  : Result AddressTable :=
  match us with
  | [] => inr tbl
  | u :: us' =>
      if existsb (fun x => Address.Id x =? Address.Id u)%N tbl.(rows) then
        UpdateAddresses
          (mkAddressTable
             (map (fun x => if (Address.Id x =? Address.Id u)%N
                            then apply_address_update x u else x) tbl.(rows))
             tbl.(next_id)) us'
      else inl NotFoundError
  end.

(** Modelled from the spec: one row of [UpdateRollups]: size and actions
    count are deltas. *)
Definition apply_rollup_update (x u : Rollup.t) : Rollup.t :=
  Rollup.mk x.(Rollup.Id) x.(Rollup.AstriaId) x.(Rollup.FirstHeight)
    (x.(Rollup.ActionsCount) + u.(Rollup.ActionsCount))
    (x.(Rollup.Size) + u.(Rollup.Size))
    x.(Rollup.BridgeAddressId).

(** Modelled from the spec: [UpdateRollups], as [UpdateAddresses]. *)
Fixpoint UpdateRollups (tbl : list Rollup.t) (us : list Rollup.t)
  : Result (list Rollup.t) :=
  match us with
  | [] => inr tbl
  | u :: us' =>
      if existsb (fun x => Rollup.Id x =? Rollup.Id u)%N tbl then
        UpdateRollups
          (map (fun x => if (Rollup.Id x =? Rollup.Id u)%N
                         then apply_rollup_update x u else x) tbl) us'
      else inl NotFoundError
  end.

(** The arithmetic inverse of an address update, given the row as it was
    before the update: deltas negated, nonce restored. *)
Definition inverse_address_update (u prior : Address.t) : Address.t :=
  Address.mk u.(Address.Id) u.(Address.Height) u.(Address.Hash)
    prior.(Address.Nonce)
    (- u.(Address.ActionsCount)) (- u.(Address.SignedTxCount)).

Definition inverse_rollup_update (u : Rollup.t) : Rollup.t :=
  Rollup.mk u.(Rollup.Id) u.(Rollup.AstriaId) u.(Rollup.FirstHeight)
    (- u.(Rollup.ActionsCount)) (- u.(Rollup.Size)) u.(Rollup.BridgeAddressId).

(* ------------------------------------------------------------------ *)
(** ** Unit of work (spec, sections 5 and 6) *)

Section UnitOfWork.
(** The whole database state (all tables). *)
Variable DB : Type.

(** An open unit of work: the state other units of work see
    ([committed]), its own pending state ([working]) and whether a call
    inside it has failed (the transaction is then aborted). *)
Record UnitOfWork := mkUnitOfWork {
  committed : DB;
  working : DB;
  aborted : bool
}.

(** A command of a unit of work: a save, update, rollback or retention
    call (one atomic batch: it fails or applies whole), or a flush. *)
Inductive Cmd :=
| Call (op : DB -> Result DB)
| Flush.

(** Modelled from the spec: [BeginTransaction]. *)
Definition BeginTransaction (db : DB) : UnitOfWork :=
  mkUnitOfWork db db false.

(** Modelled from the spec: running one command. A failing call aborts
    the unit of work; every call after it fails too. A flush makes the
    accumulated writes visible, or fails and commits nothing. *)
Definition step (u : UnitOfWork) (c : Cmd) : Result unit * UnitOfWork :=
  if u.(aborted) then (inl UnavailableError, u)
  else match c with
  | Call op =>
      match op u.(working) with
      | inl e => (inl e, mkUnitOfWork u.(committed) u.(working) true)
      | inr db' => (inr tt, mkUnitOfWork u.(committed) db' false)
      end
  | Flush => (inr tt, mkUnitOfWork u.(working) u.(working) false)
  end.

(** The commands of a unit of work, in order, with their results. *)
Fixpoint run (u : UnitOfWork) (cs : list Cmd) : list (Result unit) * UnitOfWork :=
  match cs with
  | [] => ([], u)
  | c :: cs' =>
      let '(r, u1) := step u c in
      let '(rs, u2) := run u1 cs' in (r :: rs, u2)
  end.

(** Modelled from the spec: [Close] releases the unit of work; what was
    not flushed is discarded. The result is the visible database. *)
Definition Close (u : UnitOfWork) : DB := u.(committed).

(** The visible database after a whole unit of work. *)
Definition unit_of_work (db : DB) (cs : list Cmd) : DB :=
  Close (run (BeginTransaction db) cs).2.

Definition is_call (c : Cmd) : bool :=
  match c with Call _ => true | Flush => false end.
End UnitOfWork.

Arguments Call {DB}.
Arguments Flush {DB}.

(* ------------------------------------------------------------------ *)
(** ** Statistics series (internal/storage/postgres/stats.go) *)

Module Stats.
Local Open Scope string_scope.
Local Open Scope Z_scope.

(** [storage.Timeframe] is a string type. *)
Definition TimeframeHour : string := "hour".
Definition TimeframeDay : string := "day".
Definition TimeframeMonth : string := "month".

(** The series names of [storage] (stats.go). *)
Definition SeriesDataSize : string := "data_size".
Definition SeriesTPS : string := "tps".
Definition SeriesBPS : string := "bps".
Definition SeriesRBPS : string := "rbps".
Definition SeriesFee : string := "fee".
Definition SeriesSupplyChange : string := "supply_change".
Definition SeriesBlockTime : string := "block_time".
Definition SeriesTxCount : string := "tx_count".
Definition SeriesBytesInBlock : string := "bytes_in_block".
Definition SeriesGasPrice : string := "gas_price".
Definition SeriesGasUsed : string := "gas_used".
Definition SeriesGasWanted : string := "gas_wanted".
Definition SeriesGasEfficiency : string := "gas_efficiency".

Definition RollupSeriesActionsCount : string := "actions_count".
Definition RollupSeriesSize : string := "size".
Definition RollupSeriesAvgSize : string := "avg_size".
Definition RollupSeriesMinSize : string := "min_size".
Definition RollupSeriesMaxSize : string := "max_size".

(** The materialized views read by the series queries. *)
Inductive View :=
| ViewBlockStatsByHour | ViewBlockStatsByDay | ViewBlockStatsByMonth
| ViewRollupStatsByHour | ViewRollupStatsByDay | ViewRollupStatsByMonth.

(** [time.Time] as Unix seconds; the zero [time.Time] (January 1, year 1,
    UTC) is the one [IsZero] recognises. *)
Definition zero_time : Z := -62135596800.
Definition IsZero (t : Z) : bool := t =? zero_time.

Record SeriesRequest := mkSeriesRequest { From : Z; To : Z }.

(** [storage.NewSeriesRequest]: a bound is set only when positive. *)
Definition NewSeriesRequest (from to : Z) : SeriesRequest :=
  mkSeriesRequest (if 0 <? from then from else zero_time)
                  (if 0 <? to then to else zero_time).

Record SeriesItem := mkSeriesItem {
  Time : Z; Value : string; Max : string; Min : string
}.

(** A [WHERE] condition of the queries built here. *)
Inductive Cond :=
| RollupIdEq (id : N)
| TsGe (t : Z)
| TsLt (t : Z).

(** A select query: [ColumnExpr] as (source column, alias) pairs. *)
Record Query := mkQuery {
  Table : View;
  Columns : list (string * string);
  Wheres : list Cond;
  Limit : nat
}.

(** A row of a view: its bucket time, rollup id (for rollup views) and
    its value columns. *)
Record ViewRow := mkViewRow {
  ts : Z;
  rollup_id : N;
  cols : list (string * string)
}.

(** The database: the rows of each view. *)
Definition Db := View -> list ViewRow.

(** Storage access: reads the database and records the queries sent. *)
Definition DbM (A : Type) := Db -> A * list Query.

Definition ret {A} (a : A) : DbM A := fun _ => (a, []).

Definition holds (r : ViewRow) (c : Cond) : bool :=
  match c with
  | RollupIdEq id => (r.(rollup_id) =? id)%N
  | TsGe t => t <=? r.(ts)
  | TsLt t => r.(ts) <? t
  end.

Definition column (r : ViewRow) (cs : list (string * string)) (alias : string)
  : string :=
  match List.find (fun p => String.eqb p.2 alias) cs with
  | Some (src, _) =>
      match List.find (fun p => String.eqb p.1 src) r.(cols) with
      | Some (_, v) => v
      | None => ""
      end
  | None => ""
  end.

(** [query.Scan(ctx, &response)] into [[]storage.SeriesItem]: the rows
    satisfying every condition, at most [Limit] of them (no order is
    requested). *)
Definition Scan (q : Query) : DbM (list SeriesItem) := fun db =>
  (map (fun r => mkSeriesItem r.(ts) (column r q.(Columns) "value")
                   (column r q.(Columns) "max") (column r q.(Columns) "min"))
       (firstn q.(Limit)
          (List.filter (fun r => forallb (holds r) q.(Wheres)) (db q.(Table)))),
   [q]).

Inductive SeriesError :=
| UnexpectedTimeframe (timeframe : string)
| UnexpectedSeriesName (name : string).

(** The first [switch] of [Series]. *)
Definition series_view (timeframe : string) : option View :=
  if String.eqb timeframe TimeframeHour then Some ViewBlockStatsByHour
  else if String.eqb timeframe TimeframeDay then Some ViewBlockStatsByDay
  else if String.eqb timeframe TimeframeMonth then Some ViewBlockStatsByMonth
  else None.

(** The second [switch] of [Series]. *)
Definition series_columns (name : string) : option (list (string * string)) :=
  if String.eqb name SeriesDataSize then Some [("ts", "ts"); ("data_size", "value")]
  else if String.eqb name SeriesTPS then
    Some [("ts", "ts"); ("tps", "value"); ("tps_max", "max"); ("tps_min", "min")]
  else if String.eqb name SeriesBPS then
    Some [("ts", "ts"); ("bps", "value"); ("bps_max", "max"); ("bps_min", "min")]
  else if String.eqb name SeriesRBPS then
    Some [("ts", "ts"); ("rbps", "value"); ("rbps_max", "max"); ("rbps_min", "min")]
  else if String.eqb name SeriesFee then Some [("ts", "ts"); ("fee", "value")]
  else if String.eqb name SeriesSupplyChange then
    Some [("ts", "ts"); ("supply_change", "value")]
  else if String.eqb name SeriesBlockTime then Some [("ts", "ts"); ("block_time", "value")]
  else if String.eqb name SeriesTxCount then Some [("ts", "ts"); ("tx_count", "value")]
  else if String.eqb name SeriesBytesInBlock then
    Some [("ts", "ts"); ("bytes_in_block", "value")]
  else if String.eqb name SeriesGasPrice then Some [("ts", "ts"); ("gas_price", "value")]
  else if String.eqb name SeriesGasEfficiency then
    Some [("ts", "ts"); ("gas_efficiency", "value")]
  else if String.eqb name SeriesGasWanted then Some [("ts", "ts"); ("gas_wanted", "value")]
  else if String.eqb name SeriesGasUsed then Some [("ts", "ts"); ("gas_used", "value")]
  else None.

(** The [From]/[To] conditions, each added only for a non-zero bound. *)
Definition time_bounds (req : SeriesRequest) : list Cond :=
  (if IsZero req.(From) then [] else [TsGe req.(From)]) ++
  (if IsZero req.(To) then [] else [TsLt req.(To)]).

(** [Stats.Series]: [(response, err)]; the error cases return before the
    query is run. *)
Definition Series (timeframe : string) (name : string) (req : SeriesRequest)
  : DbM (list SeriesItem * option SeriesError) :=
  match series_view timeframe with
  | None => ret ([], Some (UnexpectedTimeframe timeframe))
  | Some view =>
      match series_columns name with
      | None => ret ([], Some (UnexpectedSeriesName name))
      | Some cols => fun db =>
          let '(resp, qs) := Scan (mkQuery view cols (time_bounds req) 100) db in
          ((resp, None), qs)
      end
  end.

Definition rollup_series_view (timeframe : string) : option View :=
  if String.eqb timeframe TimeframeHour then Some ViewRollupStatsByHour
  else if String.eqb timeframe TimeframeDay then Some ViewRollupStatsByDay
  else if String.eqb timeframe TimeframeMonth then Some ViewRollupStatsByMonth
  else None.

Definition rollup_series_columns (name : string) : option (list (string * string)) :=
  if String.eqb name RollupSeriesActionsCount then
    Some [("ts", "ts"); ("actions_count", "value")]
  else if String.eqb name RollupSeriesAvgSize then Some [("ts", "ts"); ("avg_size", "value")]
  else if String.eqb name RollupSeriesMaxSize then Some [("ts", "ts"); ("max_size", "value")]
  else if String.eqb name RollupSeriesMinSize then Some [("ts", "ts"); ("min_size", "value")]
  else if String.eqb name RollupSeriesSize then Some [("ts", "ts"); ("size", "value")]
  else None.

(** [Stats.RollupSeries]: as [Series], over the rollup views and with the
    [rollup_id = ?] condition first. *)
Definition RollupSeries (rollupId : N) (timeframe : string) (name : string)
  (req : SeriesRequest) : DbM (list SeriesItem * option SeriesError) :=
  match rollup_series_view timeframe with
  | None => ret ([], Some (UnexpectedTimeframe timeframe))
  | Some view =>
      match rollup_series_columns name with
      | None => ret ([], Some (UnexpectedSeriesName name))
      | Some cols => fun db =>
          let '(resp, qs) :=
            Scan (mkQuery view cols (RollupIdEq rollupId :: time_bounds req) 100) db in
          ((resp, None), qs)
      end
  end.

(** The series names each function recognises. *)
Definition series_names : list string :=
  [SeriesDataSize; SeriesTPS; SeriesBPS; SeriesRBPS; SeriesFee; SeriesSupplyChange;
   SeriesBlockTime; SeriesTxCount; SeriesBytesInBlock; SeriesGasPrice;
   SeriesGasUsed; SeriesGasWanted; SeriesGasEfficiency].

Definition rollup_series_names : list string :=
  [RollupSeriesActionsCount; RollupSeriesSize; RollupSeriesAvgSize;
   RollupSeriesMinSize; RollupSeriesMaxSize].

Definition timeframes : list string := [TimeframeHour; TimeframeDay; TimeframeMonth].

(** The filter the claims describe, in their words: [ts >= From] when
    [From] is non-zero, [ts < To] when [To] is non-zero. *)
Definition in_range (req : SeriesRequest) (r : ViewRow) : bool :=
  (IsZero req.(From) || (req.(From) <=? r.(ts))) &&
  (IsZero req.(To) || (r.(ts) <? req.(To))).

(** The value a view row holds in a column (SQL [NULL] scans as [""]):
    what a [ColumnExpr] alias of that column reads. *)
Definition col_value (r : ViewRow) (c : string) : string :=
  match List.find (fun p => String.eqb p.1 c) r.(cols) with
  | Some (_, v) => v
  | None => ""
  end.

(** The series whose query also selects [<name>_max] and [<name>_min]. *)
Definition minmax_series : list string := [SeriesTPS; SeriesBPS; SeriesRBPS].

End Stats.

(* ------------------------------------------------------------------ *)
(** ** Action queries (internal/storage/postgres/action.go) *)

Module ActionQueries.
Local Open Scope string_scope.
Local Open Scope Z_scope.

(** [sdk.SortOrder]. *)
Inductive SortOrder := SortOrderAsc | SortOrderDesc.

(** What [sortScope], [limitScope] and [offsetScope] (scopes.go, not
    among the sources) add to a query: an [ORDER BY] column and order,
    a [LIMIT] and an [OFFSET]. *)
Record Scopes := mkScopes {
  sort : option (string * SortOrder);
  limit : Z;
  offset : Z
}.

(** The columns of an [address_action] row ([storage.AddressAction]). *)
Record AddressActionRow := mkAddressActionRow {
  aa_AddressId : N; aa_ActionId : N; aa_TxId : N; aa_ActionType : string;
  aa_Height : Level; aa_Time : Z
}.

(** The columns of a [rollup_action] row ([storage.RollupAction]). *)
Record RollupActionRow := mkRollupActionRow {
  ra_RollupId : N; ra_ActionId : N; ra_TxId : N; ra_Height : Level; ra_Time : Z
}.

(** [storage.ActionTxsFilter]'s [types.ActionTypeMask]: a bit mask. *)
Record ActionTypeMask := mkActionTypeMask { Bits : N }.

(** [storage.AddressActionsFilter]. *)
Record AddressActionsFilter := mkAddressActionsFilter {
  Limit : Z; Offset : Z; Sort : SortOrder; ActionTypes : ActionTypeMask
}.

(** [storage.ActionWithTx]: the action and the joined [tx.hash]
    ([None] for SQL [NULL]). *)
Record ActionWithTx := mkActionWithTx {
  awt_Action : Action.t; awt_TxHash : option (list Byte.byte)
}.

(** A scanned [storage.AddressAction] / [storage.RollupAction]: the row
    with its joined action ([action__*] columns) and [tx__hash]. *)
Record AddressActionOut := mkAddressActionOut {
  aao_Row : AddressActionRow; aao_Action : option Action.t;
  aao_TxHash : option (list Byte.byte)
}.

Record RollupActionOut := mkRollupActionOut {
  rao_Row : RollupActionRow; rao_Action : option Action.t;
  rao_TxHash : option (list Byte.byte)
}.

(** SQL [l LEFT JOIN r ON cond]: every left row with each right row
    matching it, or once with [NULL]s when none does. SQL fixes no order
    of the result rows; this lists them by left row. *)
Definition left_join {L R : Type} (on : L -> R -> bool) (ls : list L) (rs : list R)
  : list (L * option R) :=
  flat_map (fun l =>
    match List.filter (on l) rs with
    | [] => [(l, None)]
    | ms => map (fun m => (l, Some m)) ms
    end) ls.

Section Queries.
(** The rows the scopes keep of a query's result (their code is not
    among the sources): only rows of the result. *)
Variable scoped : forall A : Type, Scopes -> list A -> list A.
(** [ActionTypeMask.Strings] (not among the sources). *)
Variable mask_strings : N -> list string.

(** [Action.ByBlock]: the page of the actions at [height], each with the
    hash of its transaction. *)
Definition ByBlock (actions : list Action.t) (txs : list Tx.t) (height : Level)
  (limit offset : Z) : list ActionWithTx :=
  let query := scoped _ (mkScopes None limit offset)
                 (List.filter (fun a => Action.Height a =? height) actions) in
  map (fun p => mkActionWithTx p.1 (option_map Tx.Hash p.2))
    (left_join (fun a t => (Tx.Id t =? Action.TxId a)%N) query txs).

(** [Action.ByTxId]. *)
Definition ByTxId (actions : list Action.t) (txId : N) (limit offset : Z)
  : list Action.t :=
  scoped _ (mkScopes None limit offset)
    (List.filter (fun a => (Action.TxId a =? txId)%N) actions).

(** The inner query of [Action.ByAddress]. *)
Definition by_address_query (rows : list AddressActionRow) (addressId : N)
  (filters : AddressActionsFilter) : list AddressActionRow :=
  let query := List.filter (fun r => (aa_AddressId r =? addressId)%N) rows in
  let query :=
    if (0 <? Bits (ActionTypes filters))%N
    then List.filter (fun r => existsb (String.eqb (aa_ActionType r))
                                 (mask_strings (Bits (ActionTypes filters)))) query
    else query in
  scoped _ (mkScopes (Some ("action_id", Sort filters))
                     (Limit filters) (Offset filters)) query.

(** [Action.ByAddress]: the inner query, [left join tx], [left join action]. *)
Definition ByAddress (rows : list AddressActionRow) (actions : list Action.t)
  (txs : list Tx.t) (addressId : N) (filters : AddressActionsFilter)
  : list AddressActionOut :=
  map (fun p => mkAddressActionOut p.1.1 p.2 (option_map Tx.Hash p.1.2))
    (left_join (fun p a => (Action.Id a =? aa_ActionId p.1)%N)
       (left_join (fun r t => (Tx.Id t =? aa_TxId r)%N)
          (by_address_query rows addressId filters) txs)
       actions).

(** The inner query of [Action.ByRollup]. *)
Definition by_rollup_query (rows : list RollupActionRow) (rollupId : N)
  (limit offset : Z) (sort : SortOrder) : list RollupActionRow :=
  scoped _ (mkScopes (Some ("action_id", sort)) limit offset)
    (List.filter (fun r => (ra_RollupId r =? rollupId)%N) rows).

(** [Action.ByRollup]. *)
Definition ByRollup (rows : list RollupActionRow) (actions : list Action.t)
  (txs : list Tx.t) (rollupId : N) (limit offset : Z) (sort : SortOrder)
  : list RollupActionOut :=
  map (fun p => mkRollupActionOut p.1.1 p.2 (option_map Tx.Hash p.1.2))
    (left_join (fun p a => (Action.Id a =? ra_ActionId p.1)%N)
       (left_join (fun r t => (Tx.Id t =? ra_TxId r)%N)
          (by_rollup_query rows rollupId limit offset sort) txs)
       actions).
End Queries.
End ActionQueries.

(* ------------------------------------------------------------------ *)
(** ** Genesis constants (the genesis module's parseConstants) *)

Module Genesis.
Local Open Scope string_scope.
Local Open Scope Z_scope.

(** The [storageTypes.ModuleName] values used by [parseConstants]. *)
Inductive ModuleName :=
| ModuleNameBlock | ModuleNameEvidence | ModuleNameValidator
| ModuleNameVersion | ModuleNameGeneric.

#[global] Instance ModuleName_eq_dec : EqDecision ModuleName.
Proof. solve_decision. Defined.

#[global] Instance string_eq_dec : EqDecision string := String.string_dec.

(** [storage.Constant]: [Module_] is the Go field [Module], a Rocq
    keyword. *)
Record Constant := mkConstant { Module_ : ModuleName; Name : string; Value : string }.

(** The key of the [constant] table. *)
Definition key (c : Constant) : ModuleName * string := (Module_ c, Name c).

(** The fields of [pkgTypes.ConsensusParams] read by [parseConstants];
    [MaxAgeDuration] is a [time.Duration] (int64 nanoseconds). *)
Record ConsensusParams := mkConsensusParams {
  Block_MaxBytes : Z; Block_MaxGas : Z;
  Evidence_MaxAgeNumBlocks : Z; Evidence_MaxAgeDuration : Z; Evidence_MaxBytes : Z;
  Validator_PubKeyTypes : list string;
  Version_AppVersion : N
}.

(** The fields of [nodeTypes.AppState] read by [parseConstants]. *)
Record AppState := mkAppState {
  AuthoritySudoKey : string; NativeAssetBaseDenomination : string;
  IbcSudoAddress : string
}.

(** Decimal digits of [n] prepended to [acc]; [fuel] bounds the digit count. *)
Fixpoint decimal (fuel : nat) (n : N) (acc : string) : string :=
  match fuel with
  | O => acc
  | S f =>
      let acc' := String (Ascii.ascii_of_N (48 + n mod 10)) acc in
      if (n <? 10)%N then acc' else decimal f (n / 10) acc'
  end.

(** [strconv.FormatUint(n, 10)] and [strconv.FormatInt(n, 10)]. *)
Definition FormatUint (n : N) : string := decimal (S (N.to_nat (N.log2 n))) n "".
Definition FormatInt (n : Z) : string :=
  if n <? 0 then "-" ++ FormatUint (Z.abs_N n) else FormatUint (Z.to_N n).

(** [strings.Join]. *)
Fixpoint Join (elems : list string) (sep : string) : string :=
  match elems with
  | [] => ""
  | [e] => e
  | e :: rest => e ++ sep ++ Join rest sep
  end.

Section ParseConstants.
(** [time.Duration.String] (Go standard library). *)
Variable Duration_String : Z -> string.

(** [Module.parseConstants]: [data.constants] after the ten appends. *)
Definition parseConstants (appState : AppState) (consensus : ConsensusParams)
  (constants : list Constant) : list Constant :=
  constants ++
  [mkConstant ModuleNameBlock "block_max_bytes" (FormatInt (Block_MaxBytes consensus));
   mkConstant ModuleNameBlock "block_max_gas" (FormatInt (Block_MaxGas consensus));
   mkConstant ModuleNameEvidence "max_age_num_blocks"
     (FormatInt (Evidence_MaxAgeNumBlocks consensus));
   mkConstant ModuleNameEvidence "max_age_duration"
     (Duration_String (Evidence_MaxAgeDuration consensus));
   mkConstant ModuleNameEvidence "max_bytes" (FormatInt (Evidence_MaxBytes consensus));
   mkConstant ModuleNameValidator "pub_key_types"
     (Join (Validator_PubKeyTypes consensus) ",");
   mkConstant ModuleNameVersion "app" (FormatUint (Version_AppVersion consensus));
   mkConstant ModuleNameGeneric "authority_sudo_key" (AuthoritySudoKey appState);
   mkConstant ModuleNameGeneric "native_asset_base_denomination"
     (NativeAssetBaseDenomination appState);
   mkConstant ModuleNameGeneric "ibc_sudo_address" (IbcSudoAddress appState)].
End ParseConstants.

(** The keys [parseConstants] writes. *)
Definition parsed_keys : list (ModuleName * string) :=
  [(ModuleNameBlock, "block_max_bytes"); (ModuleNameBlock, "block_max_gas");
   (ModuleNameEvidence, "max_age_num_blocks"); (ModuleNameEvidence, "max_age_duration");
   (ModuleNameEvidence, "max_bytes"); (ModuleNameValidator, "pub_key_types");
   (ModuleNameVersion, "app"); (ModuleNameGeneric, "authority_sudo_key");
   (ModuleNameGeneric, "native_asset_base_denomination");
   (ModuleNameGeneric, "ibc_sudo_address")].

(** A reader of a comma-joined value: the pieces between commas (as Go's
    [strings.Split(s, ",")]). *)
Fixpoint split_comma (s : string) : list string :=
  match s with
  | EmptyString => [""]
  | String c s' =>
      let rest := split_comma s' in
      if Ascii.eqb c ","%char then "" :: rest
      else match rest with
           | h :: t => String c h :: t
           | [] => [String c ""]
           end
  end.

(** A string without a comma. *)
Fixpoint no_comma (s : string) : bool :=
  match s with
  | EmptyString => true
  | String c s' => negb (Ascii.eqb c ","%char) && no_comma s'
  end.

(** [strconv.ParseInt(s, 10, 64)] restricted to what [FormatInt] writes
    (no range check): an optional [-] then decimal digits. *)
Fixpoint parse_digits (s : string) (acc : N) : option N :=
  match s with
  | EmptyString => Some acc
  | String c s' =>
      let d := Ascii.N_of_ascii c in
      if (48 <=? d)%N && (d <=? 57)%N then parse_digits s' (acc * 10 + (d - 48))
      else None
  end.

Definition ParseInt (s : string) : option Z :=
  match s with
  | EmptyString => None
  | String c s' =>
      if Ascii.eqb c "-"%char then
        match s' with
        | EmptyString => None
        | _ => option_map (fun n => - Z.of_N n) (parse_digits s' 0)
        end
      else option_map Z.of_N (parse_digits s 0)
  end.
End Genesis.

(* ================================================================== *)
(** * Properties *)

(* ------------------------------------------------------------------ *)
(** ** Identity resolution *)

Lemma find_by_hash_some rs h r :
  find_by_hash rs h = Some r -> r ∈ rs /\ Address.Hash r = h.
Proof.
  unfold find_by_hash. intros Hf.
  apply find_some in Hf as [Hin Hb].
  apply bool_decide_eq_true in Hb.
  split; [by apply list_elem_of_In | done].
Qed.

Lemma find_by_hash_none rs h : find_by_hash rs h = None -> h ∉ hashes rs.
Proof.
  unfold find_by_hash, hashes. intros Hf Hin.
  apply list_elem_of_In, in_map_iff in Hin as (r & <- & Hr).
  pose proof (find_none _ _ Hf r Hr) as Hb. simpl in Hb.
  rewrite bool_decide_eq_true_2 in Hb; done.
Qed.

Lemma elem_of_hashes r rs : r ∈ rs -> Address.Hash r ∈ hashes rs.
Proof.
  unfold hashes. intros Hr. apply list_elem_of_In, in_map, list_elem_of_In, Hr.
Qed.

Lemma hashes_app rs1 rs2 : hashes (rs1 ++ rs2) = hashes rs1 ++ hashes rs2.
Proof. apply map_app. Qed.

Lemma fresh_hashes_elem seen l h :
  h ∈ fresh_hashes seen l <-> h ∈ l /\ h ∉ seen.
Proof.
  revert seen. induction l as [|x l IH]; intros seen; simpl.
  - set_solver.
  - destruct (decide (x ∈ seen)) as [Hx|Hx].
    + rewrite IH, elem_of_cons.
      destruct (decide (h = x)); subst; tauto.
    + rewrite !elem_of_cons, IH, elem_of_app, list_elem_of_singleton.
      destruct (decide (h = x)); subst; tauto.
Qed.

Lemma fresh_hashes_nodup seen l :
  NoDup seen -> NoDup (seen ++ fresh_hashes seen l).
Proof.
  revert seen. induction l as [|x l IH]; intros seen Hs; simpl.
  - by rewrite app_nil_r.
  - destruct (decide (x ∈ seen)) as [Hx|Hx]; [by apply IH|].
    replace (seen ++ x :: fresh_hashes (seen ++ [x]) l)
      with ((seen ++ [x]) ++ fresh_hashes (seen ++ [x]) l)
      by (rewrite <- app_assoc; done).
    apply IH. apply NoDup_app. split; [done|]. split.
    + intros y Hy Hy'. apply list_elem_of_singleton in Hy'. subst. done.
    + apply NoDup_singleton.
Qed.

(** One call: the table only grows, by one row per genuinely new hash,
    and the count is the number of rows added. *)
Lemma save_addresses_rows cs tbl :
  let '(tbl', out, n) := SaveAddresses tbl cs in
  exists new, tbl'.(rows) = tbl.(rows) ++ new /\
    hashes new = fresh_hashes (hashes tbl.(rows)) (hashes cs) /\
    n = N.of_nat (length new).
Proof.
  revert tbl. induction cs as [|c cs IH]; intros tbl; simpl.
  - exists []. by rewrite app_nil_r.
  - destruct (find_by_hash _ _) as [r|] eqn:Hf.
    + specialize (IH tbl). destruct (SaveAddresses tbl cs) as [[t' out] n].
      destruct IH as (new & Hr & Hh & Hn). exists new.
      split; [done|]. split; [|done].
      apply find_by_hash_some in Hf as [Hin Hh'].
      rewrite decide_True; [done|]. rewrite <- Hh'. by apply elem_of_hashes.
    + specialize (IH (mkAddressTable (rows tbl ++ [Address.with_id c (next_id tbl)])
                                     (N.succ (next_id tbl)))).
      destruct (SaveAddresses _ cs) as [[t' out] n].
      destruct IH as (new & Hr & Hh & Hn).
      exists (Address.with_id c (next_id tbl) :: new). simpl in *.
      split; [by rewrite Hr, <- app_assoc|]. split.
      * rewrite decide_False by (by apply find_by_hash_none).
        f_equal. rewrite Hh, hashes_app. done.
      * subst. lia.
Qed.

Lemma save_addresses_prefix cs tbl :
  exists new, (SaveAddresses tbl cs).1.1.(rows) = tbl.(rows) ++ new.
Proof.
  pose proof (save_addresses_rows cs tbl) as H.
  destruct (SaveAddresses tbl cs) as [[t' out] n]. destruct H as (new & ? & _). eauto.
Qed.

Lemma save_addresses_hashes cs tbl x :
  x ∈ hashes (SaveAddresses tbl cs).1.1.(rows) <-> x ∈ hashes tbl.(rows) \/ x ∈ hashes cs.
Proof.
  pose proof (save_addresses_rows cs tbl) as H.
  destruct (SaveAddresses tbl cs) as [[t' out] n]. destruct H as (new & Hr & Hh & _).
  simpl. rewrite Hr, hashes_app, elem_of_app, Hh, fresh_hashes_elem.
  destruct (decide (x ∈ hashes (rows tbl))); tauto.
Qed.

Lemma save_addresses_nodup cs tbl :
  NoDup (hashes tbl.(rows)) -> NoDup (hashes (SaveAddresses tbl cs).1.1.(rows)).
Proof.
  pose proof (save_addresses_rows cs tbl) as H.
  destruct (SaveAddresses tbl cs) as [[t' out] n]. destruct H as (new & Hr & Hh & _).
  simpl. rewrite Hr, hashes_app, Hh. apply fresh_hashes_nodup.
Qed.

(** One call: each candidate comes back with only its id changed, and that
    id is the id of a stored row with its hash. *)
Lemma save_addresses_out cs tbl :
  let '(tbl', out, n) := SaveAddresses tbl cs in
  Forall2 (fun c c' => c' = Address.with_id c (Address.Id c')) cs out /\
  Forall (fun c' => exists r, r ∈ tbl'.(rows) /\
            Address.Hash r = Address.Hash c' /\ Address.Id r = Address.Id c') out.
Proof.
  revert tbl. induction cs as [|c cs IH]; intros tbl; simpl.
  - done.
  - destruct (find_by_hash _ _) as [r|] eqn:Hf.
    + pose proof (save_addresses_prefix cs tbl) as [new Hnew].
      specialize (IH tbl). destruct (SaveAddresses tbl cs) as [[t' out] n].
      simpl in Hnew. destruct IH as [IH1 IH2].
      split; [by constructor|]. constructor; [|done].
      apply find_by_hash_some in Hf as [Hin Hh].
      exists r. rewrite Hnew, elem_of_app. simpl. auto.
    + set (tbl1 := mkAddressTable (rows tbl ++ [Address.with_id c (next_id tbl)])
                                  (N.succ (next_id tbl))).
      pose proof (save_addresses_prefix cs tbl1) as [new Hnew].
      specialize (IH tbl1). destruct (SaveAddresses tbl1 cs) as [[t' out] n].
      simpl in Hnew. destruct IH as [IH1 IH2].
      split; [by constructor|]. constructor; [|done].
      exists (Address.with_id c (next_id tbl)). split; [|done].
      rewrite Hnew, !elem_of_app, list_elem_of_singleton. auto.
Qed.

Lemma filter_hash_nil (l : list Address.t) h :
  (forall x, x ∈ l -> Address.Hash x <> h) ->
  List.filter (fun x => bool_decide (Address.Hash x = h)) l = [].
Proof.
  induction l as [|y l IH]; intros Hl; simpl; [done|].
  rewrite bool_decide_eq_false_2 by (apply Hl; left).
  apply IH. intros x Hx. apply Hl. by right.
Qed.

(** With unique hashes, the rows with a stored row's hash are that row. *)
Lemma filter_hash_unique (l : list Address.t) r :
  NoDup (hashes l) -> r ∈ l ->
  List.filter (fun x => bool_decide (Address.Hash x = Address.Hash r)) l = [r].
Proof.
  induction l as [|y l IH]; intros Hnd Hr; [by apply elem_of_nil in Hr|].
  simpl in Hnd. apply NoDup_cons in Hnd as [Hy Hnd]. simpl.
  apply elem_of_cons in Hr as [->|Hr].
  - rewrite bool_decide_eq_true_2 by done. f_equal.
    apply filter_hash_nil. intros x Hx Heq. apply Hy. rewrite <- Heq.
    by apply elem_of_hashes.
  - rewrite bool_decide_eq_false_2; [by apply IH|].
    intros Heq. apply Hy. rewrite Heq. by apply elem_of_hashes.
Qed.

Lemma hash_unique (l : list Address.t) r1 r2 :
  NoDup (hashes l) -> r1 ∈ l -> r2 ∈ l -> Address.Hash r2 = Address.Hash r1 -> r2 = r1.
Proof.
  intros Hnd H1 H2 Heq.
  pose proof (filter_hash_unique l r1 Hnd H1) as Hf.
  assert (Hin : In r2 (List.filter (fun x => bool_decide (Address.Hash x = Address.Hash r1)) l)).
  { apply filter_In. split; [by apply list_elem_of_In|]. by apply bool_decide_eq_true_2. }
  rewrite Hf in Hin. destruct Hin as [->|[]]. done.
Qed.

Lemma calls_prefix bs tbl :
  exists new, (SaveAddressesCalls tbl bs).1.(rows) = tbl.(rows) ++ new.
Proof.
  revert tbl. induction bs as [|b bs IH]; intros tbl; simpl.
  - exists []. by rewrite app_nil_r.
  - pose proof (save_addresses_prefix b tbl) as [new1 H1].
    destruct (SaveAddresses tbl b) as [[tbl1 out] n]. simpl in H1.
    specialize (IH tbl1). destruct (SaveAddressesCalls tbl1 bs) as [tbl2 outs].
    destruct IH as [new2 H2]. simpl in *. exists (new1 ++ new2).
    by rewrite H2, H1, app_assoc.
Qed.

Lemma calls_hashes bs tbl x :
  x ∈ hashes (SaveAddressesCalls tbl bs).1.(rows) <->
  x ∈ hashes tbl.(rows) \/ exists b, b ∈ bs /\ x ∈ hashes b.
Proof.
  revert tbl. induction bs as [|b bs IH]; intros tbl; simpl.
  - split; [auto|]. intros [?|(b & Hb & _)]; [done|by apply elem_of_nil in Hb].
  - pose proof (save_addresses_hashes b tbl x) as Hx.
    destruct (SaveAddresses tbl b) as [[tbl1 out] n]. simpl in Hx.
    specialize (IH tbl1). destruct (SaveAddressesCalls tbl1 bs) as [tbl2 outs].
    simpl in *. rewrite IH, Hx. split.
    + intros [[?|?]|(b' & ? & ?)]; [by left|right; exists b; split; [left|done]|].
      right. exists b'. split; [by right|done].
    + intros [?|(b' & Hb' & ?)]; [by left; left|].
      apply elem_of_cons in Hb' as [->|Hb']; [by left; right|].
      right. by exists b'.
Qed.

Lemma calls_nodup bs tbl :
  NoDup (hashes tbl.(rows)) -> NoDup (hashes (SaveAddressesCalls tbl bs).1.(rows)).
Proof.
  revert tbl. induction bs as [|b bs IH]; intros tbl Hnd; simpl; [done|].
  pose proof (save_addresses_nodup b tbl Hnd) as H1.
  destruct (SaveAddresses tbl b) as [[tbl1 out] n]. simpl in H1.
  specialize (IH tbl1 H1). destruct (SaveAddressesCalls tbl1 bs) as [tbl2 outs].
  done.
Qed.

(** Every candidate of every call resolves to a row of the final table. *)
Lemma calls_resolved bs tbl :
  let '(tbl', outs) := SaveAddressesCalls tbl bs in
  forall o c, o ∈ outs -> c ∈ o.1 ->
    exists r, r ∈ tbl'.(rows) /\ Address.Hash r = Address.Hash c /\
              Address.Id r = Address.Id c.
Proof.
  revert tbl. induction bs as [|b bs IH]; intros tbl; simpl.
  - intros o c Ho. by apply elem_of_nil in Ho.
  - pose proof (save_addresses_out b tbl) as Hout.
    destruct (SaveAddresses tbl b) as [[tbl1 out] n].
    pose proof (calls_prefix bs tbl1) as [new Hnew].
    specialize (IH tbl1). destruct (SaveAddressesCalls tbl1 bs) as [tbl2 outs].
    simpl in Hnew. intros o c Ho Hc.
    apply elem_of_cons in Ho as [->|Ho]; [|by apply (IH o c)].
    destruct Hout as [_ Hout]. simpl in Hc.
    rewrite Forall_forall in Hout. destruct (Hout c Hc) as (r & Hr & Hh & Hi).
    exists r. split; [|done]. rewrite Hnew. by apply elem_of_app; left.
Qed.

(** Call [i] of a sequence: candidates are back-filled, and its count is
    the number of distinct hashes it introduces, those in neither the
    initial table nor an earlier call. *)
Lemma calls_counts bs tbl i b o H :
  NoDup (hashes tbl.(rows)) ->
  bs !! i = Some b -> (SaveAddressesCalls tbl bs).2 !! i = Some o ->
  Forall2 (fun c c' => c' = Address.with_id c (Address.Id c')) b o.1 /\
  exists F, o.2 = N.of_nat (length F) /\ NoDup F /\
    (H ∈ F <-> H ∈ hashes b /\ (H ∉ hashes tbl.(rows)) /\
       forall j b', (j < i)%nat -> bs !! j = Some b' -> H ∉ hashes b').
Proof.
  revert tbl i. induction bs as [|b0 bs IH]; intros tbl i Hnd Hb Ho; [done|].
  simpl in Ho.
  pose proof (save_addresses_rows b0 tbl) as Hrows.
  pose proof (save_addresses_out b0 tbl) as Hout.
  pose proof (save_addresses_nodup b0 tbl Hnd) as Hnd1.
  pose proof (fun x => save_addresses_hashes b0 tbl x) as Hx.
  destruct (SaveAddresses tbl b0) as [[tbl1 out] n]. simpl in Hnd1, Hx.
  specialize (IH tbl1). destruct (SaveAddressesCalls tbl1 bs) as [tbl2 outs].
  destruct i as [|i].
  - simpl in Hb, Ho. injection Hb as <-. injection Ho as <-. simpl.
    destruct Hout as [Hf2 _]. split; [done|].
    destruct Hrows as (new & _ & Hh & Hn).
    exists (hashes new). split; [by rewrite Hn; unfold hashes; rewrite length_map|].
    split.
    + pose proof (fresh_hashes_nodup (hashes (rows tbl)) (hashes b0) Hnd) as Hd.
      rewrite <- Hh in Hd. apply NoDup_app in Hd as (_ & _ & Hd). done.
    + rewrite Hh, fresh_hashes_elem. split; [intros [? ?]; repeat split; auto; lia|].
      intros (? & ? & _). auto.
  - simpl in Hb, Ho. destruct (IH i Hnd1 Hb Ho) as [Hf2 (F & Hn & HF & Hmem)].
    split; [done|]. exists F. split; [done|]. split; [done|].
    rewrite Hmem, Hx. split.
    + intros (Hb' & Hnot & Hearly). split; [done|]. split; [tauto|].
      intros [|j] b' Hj Hbj; simpl in Hbj.
      * injection Hbj as <-. tauto.
      * apply (Hearly j); [lia|done].
    + intros (Hb' & Hnot & Hearly). split; [done|]. split.
      * intros [?|?]; [done|]. apply (Hearly 0%nat b0); [lia|done|done].
      * intros j b' Hj Hbj. apply (Hearly (S j)); [lia|done].
Qed.

Lemma fresh_hashes_ext s1 s2 l :
  (forall x, x ∈ s1 <-> x ∈ s2) -> fresh_hashes s1 l = fresh_hashes s2 l.
Proof.
  revert s1 s2. induction l as [|x l IH]; intros s1 s2 Hs; simpl; [done|].
  destruct (decide (x ∈ s1)) as [H1|H1], (decide (x ∈ s2)) as [H2|H2].
  - by apply IH.
  - exfalso. apply H2, Hs, H1.
  - exfalso. apply H1, Hs, H2.
  - f_equal. apply IH. intros y. rewrite !elem_of_app, Hs. tauto.
Qed.

Lemma fresh_hashes_all_seen seen l :
  Forall (fun x => x ∈ seen) l -> fresh_hashes seen l = [].
Proof.
  induction 1 as [|x l Hx _ IH]; simpl; [done|].
  by destruct (decide (x ∈ seen)).
Qed.

(** A batch of one repeated hash brings that hash, unless already seen. *)
Lemma fresh_hashes_const seen l H :
  l <> [] -> Forall (fun x => x = H) l ->
  fresh_hashes seen l = if decide (H ∈ seen) then [] else [H].
Proof.
  intros Hne Hl. destruct Hl as [|x l Hx Hl]; [done|]. subst x. simpl.
  destruct (decide (H ∈ seen)) as [Hs|Hs].
  - apply fresh_hashes_all_seen. eapply Forall_impl; [exact Hl|]. by intros y ->.
  - f_equal. apply fresh_hashes_all_seen. eapply Forall_impl; [exact Hl|].
    intros y ->. apply elem_of_app. right. by apply list_elem_of_singleton.
Qed.

(** Over several calls, the count of call [i] is the number of distinct
    hashes of its batch that neither the table nor an earlier batch had. *)
Lemma calls_counts_exact bs tbl i b o :
  bs !! i = Some b -> (SaveAddressesCalls tbl bs).2 !! i = Some o ->
  o.2 = N.of_nat (length (fresh_hashes
          (hashes tbl.(rows) ++ concat (map hashes (take i bs))) (hashes b))).
Proof.
  revert tbl i. induction bs as [|b0 bs IH]; intros tbl i Hb Ho; [done|].
  simpl in Ho.
  pose proof (save_addresses_rows b0 tbl) as Hrows.
  pose proof (fun x => save_addresses_hashes b0 tbl x) as Hx.
  destruct (SaveAddresses tbl b0) as [[tbl1 out] n]. simpl in Hx.
  specialize (IH tbl1). destruct (SaveAddressesCalls tbl1 bs) as [tbl2 outs].
  destruct i as [|i].
  - simpl in Hb, Ho. injection Hb as <-. injection Ho as <-. simpl.
    destruct Hrows as (new & _ & Hh & Hn). rewrite app_nil_r, <- Hh, Hn.
    unfold hashes. by rewrite length_map.
  - simpl in Hb, Ho. rewrite (IH i Hb Ho). do 2 f_equal.
    apply fresh_hashes_ext. intros x. simpl.
    rewrite !elem_of_app, Hx. tauto.
Qed.

(** C1 (dedup idempotence of SaveAddresses). For every address hash H,
    over any number of separate SaveAddresses calls with any number of
    candidates sharing H: the final table holds exactly one row with hash
    H, every candidate with hash H has that row's id, and each call
    returns its candidates with only their id back-filled. The count of
    call [i] is exactly the number of distinct hashes of its batch that
    were neither stored nor in an earlier batch (the genuinely new rows,
    not the batch length); H is among them exactly in the first call that
    introduces it, and a non-empty batch of candidates all sharing H
    reports 1 in that call and 0 in every later one. *)
Theorem SaveAddresses_dedup_idempotent (tbl : AddressTable)
    (bs : list (list Address.t)) (H : list Byte.byte)
    (Hwf : NoDup (hashes tbl.(rows))) :
  let '(tbl', outs) := SaveAddressesCalls tbl bs in
  ((H ∈ hashes tbl.(rows) \/ exists b, b ∈ bs /\ H ∈ hashes b) ->
   exists r,
     List.filter (fun x => bool_decide (Address.Hash x = H)) tbl'.(rows) = [r] /\
     forall o c, o ∈ outs -> c ∈ o.1 -> Address.Hash c = H ->
       Address.Id c = Address.Id r) /\
  (forall i b o, bs !! i = Some b -> outs !! i = Some o ->
     let seen := hashes tbl.(rows) ++ concat (map hashes (take i bs)) in
     Forall2 (fun c c' => c' = Address.with_id c (Address.Id c')) b o.1 /\
     o.2 = N.of_nat (length (fresh_hashes seen (hashes b))) /\
     (H ∈ fresh_hashes seen (hashes b) <-> H ∈ hashes b /\ (H ∉ seen)) /\
     (b <> [] -> Forall (fun c => Address.Hash c = H) b ->
        o.2 = if decide (H ∈ seen) then 0%N else 1%N)).
Proof.
  pose proof (calls_nodup bs tbl Hwf) as Hnd.
  pose proof (fun x => calls_hashes bs tbl x) as Hx.
  pose proof (calls_resolved bs tbl) as Hres.
  pose proof (fun i b o => calls_counts bs tbl i b o H Hwf) as Hcnt.
  pose proof (fun i b o => calls_counts_exact bs tbl i b o) as Hexact.
  destruct (SaveAddressesCalls tbl bs) as [tbl' outs]. simpl in *.
  split.
  2:{ intros i b o Hb Ho.
      split; [exact (proj1 (Hcnt i b o Hb Ho))|].
      pose proof (Hexact i b o Hb Ho) as He.
      split; [exact He|]. split; [apply fresh_hashes_elem|].
      intros Hne Hall. rewrite He, (fresh_hashes_const _ _ H).
      - by case_decide.
      - by destruct b.
      - apply List.Forall_map. exact Hall. }
  intros Hin. apply Hx in Hin.
  unfold hashes in Hin. apply list_elem_of_In, in_map_iff in Hin as (r & Hr & Hrin).
  apply list_elem_of_In in Hrin.
  exists r. split; [subst H; by apply filter_hash_unique|].
  intros o c Ho Hc Hh.
  destruct (Hres o c Ho Hc) as (r' & Hr' & Hh' & Hi').
  rewrite <- Hi'. f_equal. symmetry. apply (hash_unique (rows tbl')); try done.
  congruence.
Qed.

Lemma find_by_hash_unique rs r :
  NoDup (hashes rs) -> r ∈ rs -> find_by_hash rs (Address.Hash r) = Some r.
Proof.
  intros Hnd Hr. destruct (find_by_hash rs (Address.Hash r)) as [r'|] eqn:Hf.
  - apply find_by_hash_some in Hf as [Hr' Hh]. f_equal.
    by apply (hash_unique rs).
  - exfalso. apply (find_by_hash_none _ _ Hf). by apply elem_of_hashes.
Qed.

(** Candidates whose hash is already stored add nothing to the count. *)
Lemma save_addresses_count_skip cs tbl H :
  H ∈ hashes tbl.(rows) ->
  (SaveAddresses tbl cs).2 =
  (SaveAddresses tbl (List.filter (fun x => negb (bool_decide (Address.Hash x = H))) cs)).2.
Proof.
  revert tbl. induction cs as [|c cs IH]; intros tbl Htbl; [done|].
  simpl. destruct (bool_decide_reflect (Address.Hash c = H)) as [Heq|Hne]; simpl.
  - destruct (find_by_hash (rows tbl) (Address.Hash c)) as [r|] eqn:Hf.
    + rewrite <- (IH tbl Htbl). by destruct (SaveAddresses tbl cs) as [[? ?] ?].
    + exfalso. apply (find_by_hash_none _ _ Hf). by rewrite Heq.
  - destruct (find_by_hash (rows tbl) (Address.Hash c)) as [r|] eqn:Hf.
    + pose proof (IH tbl Htbl) as IH0.
      destruct (SaveAddresses tbl cs) as [[? ?] ?].
      destruct (SaveAddresses tbl (List.filter _ cs)) as [[? ?] ?].
      done.
    + set (tbl1 := mkAddressTable (rows tbl ++ [Address.with_id c (next_id tbl)])
                                  (N.succ (next_id tbl))).
      assert (Htbl1 : H ∈ hashes tbl1.(rows)).
      { simpl. rewrite hashes_app, elem_of_app. by left. }
      pose proof (IH tbl1 Htbl1) as IH1.
      destruct (SaveAddresses tbl1 cs) as [[? ?] n1].
      destruct (SaveAddresses tbl1 (List.filter _ cs)) as [[? ?] n2].
      simpl in *. by rewrite IH1.
Qed.

(** C4 (first-seen wins). When a row [r] with hash H is already stored and
    a SaveAddresses call carries a candidate [c] with hash H and a later
    height: afterwards [r] is still the row found for H and the only row
    with hash H (unchanged in every field, no new row), [c] comes back with
    [r]'s id, and the call's count is what it would be without the
    candidates of hash H (no insertion for them). *)
Theorem SaveAddresses_first_seen_wins (tbl : AddressTable) (cs : list Address.t)
    (r c : Address.t)
    (Hwf : NoDup (hashes tbl.(rows))) (Hr : r ∈ tbl.(rows)) (Hc : c ∈ cs)
    (Hh : Address.Hash c = Address.Hash r)
    (Hlater : Address.Height r < Address.Height c) :
  let '(tbl', out, n) := SaveAddresses tbl cs in
  find_by_hash tbl'.(rows) (Address.Hash r) = Some r /\
  List.filter (fun x => bool_decide (Address.Hash x = Address.Hash r)) tbl'.(rows) = [r] /\
  Address.with_id c (Address.Id r) ∈ out /\
  (forall c', c' ∈ out -> Address.Hash c' = Address.Hash r ->
     Address.Id c' = Address.Id r) /\
  n = (SaveAddresses tbl
         (List.filter (fun x => negb (bool_decide (Address.Hash x = Address.Hash r))) cs)).2.
Proof.
  pose proof (save_addresses_count_skip cs tbl (Address.Hash r) (elem_of_hashes r _ Hr))
    as Hcount.
  pose proof (save_addresses_nodup cs tbl Hwf) as Hnd.
  pose proof (save_addresses_prefix cs tbl) as [new Hnew].
  pose proof (save_addresses_out cs tbl) as Hout.
  destruct (SaveAddresses tbl cs) as [[tbl' out] n]. simpl in *.
  destruct Hout as [Hf2 Hres].
  assert (Hr' : r ∈ rows tbl') by (rewrite Hnew; apply elem_of_app; by left).
  assert (Hids : forall c', c' ∈ out -> Address.Hash c' = Address.Hash r ->
                   Address.Id c' = Address.Id r).
  { intros c' Hc' Hh'. rewrite Forall_forall in Hres.
    destruct (Hres c' Hc') as (r' & Hr'' & Hh'' & Hi'').
    rewrite <- Hi''. f_equal. apply (hash_unique (rows tbl')); try done. congruence. }
  split; [by apply find_by_hash_unique|].
  split; [by apply filter_hash_unique|].
  split; [|by split].
  apply list_elem_of_lookup in Hc as [i Hi].
  destruct (Forall2_lookup_l _ _ _ i c Hf2 Hi) as (c' & Hc' & Heq).
  apply list_elem_of_lookup_2 in Hc'.
  assert (Hid : Address.Id c' = Address.Id r).
  { apply Hids; [done|]. rewrite Heq. exact Hh. }
  rewrite Heq, Hid in Hc'. exact Hc'.
Qed.

(* ------------------------------------------------------------------ *)
(** ** Rollback by height *)

Lemma filter_all {A} (p : A -> bool) (l : list A) :
  Forall (fun x => p x = true) l -> List.filter p l = l.
Proof.
  induction 1 as [|x l Hx _ IH]; simpl; [done|]. by rewrite Hx, IH.
Qed.

Lemma filter_none {A} (p : A -> bool) (l : list A) :
  Forall (fun x => p x = false) l -> List.filter p l = [].
Proof.
  induction 1 as [|x l Hx _ IH]; simpl; [done|]. by rewrite Hx, IH.
Qed.

Lemma Forall_height_ne {A} `{HasHeight A} (l : list A) h :
  Forall (fun r => height_of r <> h) l -> Forall (fun r => (height_of r =? h) = false) l.
Proof. intros HF. eapply Forall_impl; [exact HF|]. intros x Hx. by apply Z.eqb_neq. Qed.

Lemma Forall_height_eq {A} `{HasHeight A} (l : list A) h :
  Forall (fun r => height_of r = h) l -> Forall (fun r => (height_of r =? h) = true) l.
Proof. intros HF. eapply Forall_impl; [exact HF|]. intros x Hx. by apply Z.eqb_eq. Qed.

(** A height-keyed rollback that returns the deleted rows, after the
    batch of height [h] was saved on rows of other heights: it returns
    exactly that batch and leaves the table as before the batch. *)
Lemma rollback_by_height_after_save {A : Type} `{HasHeight A}
    (S0 batch : list A) (h : Level)
    (Hold : Forall (fun r => height_of r <> h) S0)
    (Hnew : Forall (fun r => height_of r = h) batch) :
  RollbackByHeight (SaveRows S0 batch) h = inr (batch, S0).
Proof.
  unfold RollbackByHeight, SaveRows. rewrite !List.filter_app.
  rewrite (filter_none _ S0) by (by apply Forall_height_ne).
  rewrite (filter_all _ batch) by (by apply Forall_height_eq).
  rewrite (filter_all _ S0).
  2:{ eapply Forall_impl; [apply Forall_height_ne, Hold|]. intros x ->. done. }
  rewrite (filter_none _ batch).
  2:{ eapply Forall_impl; [apply Forall_height_eq, Hnew|]. intros x ->. done. }
  rewrite app_nil_r. simpl. done.
Qed.
(** The same for a rollback that returns no rows: it leaves the table as
    before the batch. *)
Lemma rollback_no_return_after_save {A : Type} `{HasHeight A}
    (S0 batch : list A) (h : Level)
    (Hold : Forall (fun r => height_of r <> h) S0)
    (Hnew : Forall (fun r => height_of r = h) batch) :
  RollbackHeightNoReturn (SaveRows S0 batch) h = inr S0.
Proof.
  unfold RollbackHeightNoReturn, SaveRows. rewrite List.filter_app.
  rewrite (filter_all _ S0).
  2:{ eapply Forall_impl; [apply Forall_height_ne, Hold|]. intros x ->. done. }
  rewrite (filter_none _ batch).
  2:{ eapply Forall_impl; [apply Forall_height_eq, Hnew|]. intros x ->. done. }
  by rewrite app_nil_r.
Qed.

(** C2 (rollback symmetry, corrected). For the three link kinds, when the
    [k] rows with height [h] are exactly those saved by the batch of
    height [h]: the rollback of [h] deletes exactly those [k] rows,
    leaving the table as it was before the batch, and saving the batch
    again gives back the table as it was before the rollback. The
    rollbacks of rollup-action and address-action links also return
    exactly that batch (same rows, same values, [k] of them);
    RollbackRollupAddresses returns no rows. *)
Theorem RollbackLinks_symmetry (h : Level) :
  (forall S0 batch : list RollupAction.t,
     Forall (fun r => height_of r <> h) S0 -> Forall (fun r => height_of r = h) batch ->
     match RollbackRollupActions (SaveRollupActions S0 batch) h with
     | inr (removed, rest) =>
         removed = batch /\ length removed = length batch /\ rest = S0 /\
         SaveRollupActions rest batch = SaveRollupActions S0 batch
     | inl _ => False
     end) /\
  (forall S0 batch : list AddressAction.t,
     Forall (fun r => height_of r <> h) S0 -> Forall (fun r => height_of r = h) batch ->
     match RollbackAddressActions (SaveAddressActions S0 batch) h with
     | inr (removed, rest) =>
         removed = batch /\ length removed = length batch /\ rest = S0 /\
         SaveAddressActions rest batch = SaveAddressActions S0 batch
     | inl _ => False
     end) /\
  (forall S0 batch : list RollupAddress.t,
     Forall (fun r => height_of r <> h) S0 -> Forall (fun r => height_of r = h) batch ->
     match RollbackRollupAddresses (SaveRollupAddresses S0 batch) h with
     | inr rest =>
         rest = S0 /\
         (length (SaveRollupAddresses S0 batch) - length rest = length batch)%nat /\
         SaveRollupAddresses rest batch = SaveRollupAddresses S0 batch
     | inl _ => False
     end).
Proof.
  split; [|split]; intros S0 batch Hold Hnew.
  - unfold RollbackRollupActions, SaveRollupActions.
    by rewrite (rollback_by_height_after_save S0 batch h Hold Hnew).
  - unfold RollbackAddressActions, SaveAddressActions.
    by rewrite (rollback_by_height_after_save S0 batch h Hold Hnew).
  - unfold RollbackRollupAddresses, SaveRollupAddresses.
    rewrite (rollback_no_return_after_save S0 batch h Hold Hnew).
    split; [done|]. split; [|done].
    unfold SaveRows. rewrite length_app. lia.
Qed.


(* ------------------------------------------------------------------ *)
(** ** Aggregate updates *)

Lemma filter_key_unique {A} (key : A -> N) (l : list A) x :
  NoDup (map key l) -> In x l -> List.filter (fun y => key y =? key x)%N l = [x].
Proof.
  induction l as [|y l IH]; intros Hnd Hx; [done|].
  simpl in Hnd. apply NoDup_cons in Hnd as [Hy Hnd]. simpl.
  destruct Hx as [<-|Hx].
  - rewrite N.eqb_refl. f_equal. apply filter_none.
    apply Forall_forall. intros z Hz. apply N.eqb_neq. intros Heq.
    apply Hy. rewrite <- Heq. apply list_elem_of_In, in_map, list_elem_of_In, Hz.
  - assert (Hne : (key y =? key x)%N = false).
    { apply N.eqb_neq. intros Heq. apply Hy. rewrite Heq.
      apply list_elem_of_In, in_map, Hx. }
    rewrite Hne. by apply IH.
Qed.

Lemma filter_map_comm {A} (p : A -> bool) (f : A -> A) (l : list A) :
  (forall x, p (f x) = p x) -> List.filter p (map f l) = map f (List.filter p l).
Proof.
  intros Hp. induction l as [|x l IH]; simpl; [done|].
  rewrite Hp. destruct (p x); simpl; by rewrite IH.
Qed.

Lemma existsb_id_in {A} (key : A -> N) (l : list A) x k :
  In x l -> key x = k -> existsb (fun y => key y =? k)%N l = true.
Proof.
  intros Hx Hk. apply existsb_exists. exists x. split; [done|]. by apply N.eqb_eq.
Qed.

Lemma apply_address_update_id x u :
  Address.Id (apply_address_update x u) = Address.Id x.
Proof. done. Qed.

Lemma apply_rollup_update_id x u :
  Rollup.Id (apply_rollup_update x u) = Rollup.Id x.
Proof. done. Qed.

(** A row not targeted by the update is left as it is; the targeted row of
    a table with unique ids is the prior row. *)
Lemma update_address_map_inverse (rs : list Address.t) u prior :
  NoDup (map Address.Id rs) -> In prior rs -> Address.Id prior = Address.Id u ->
  map (fun x => if (Address.Id x =? Address.Id (inverse_address_update u prior))%N
                then apply_address_update x (inverse_address_update u prior) else x)
      (map (fun x => if (Address.Id x =? Address.Id u)%N
                     then apply_address_update x u else x) rs) = rs.
Proof.
  intros Hnd Hp Hid. rewrite map_map. rewrite <- (map_id rs) at 2.
  apply map_ext_in. intros x Hx. simpl.
  destruct (Address.Id x =? Address.Id u)%N eqn:Hxu; simpl; rewrite ?Hxu; [|done].
  apply N.eqb_eq in Hxu.
  assert (x = prior) as ->.
  { pose proof (filter_key_unique Address.Id rs prior Hnd Hp) as Hf.
    assert (Hin : In x (List.filter (fun y => Address.Id y =? Address.Id prior)%N rs)).
    { apply filter_In. split; [done|]. apply N.eqb_eq. congruence. }
    rewrite Hf in Hin. by destruct Hin as [<-|[]]. }
  destruct prior as [i ht hs nc ac sc]. unfold apply_address_update. simpl.
  f_equal; lia.
Qed.

Lemma update_rollup_map_inverse (rs : list Rollup.t) u :
  map (fun x => if (Rollup.Id x =? Rollup.Id (inverse_rollup_update u))%N
                then apply_rollup_update x (inverse_rollup_update u) else x)
      (map (fun x => if (Rollup.Id x =? Rollup.Id u)%N
                     then apply_rollup_update x u else x) rs) = rs.
Proof.
  rewrite map_map. rewrite <- (map_id rs) at 2.
  apply map_ext. intros x. simpl.
  destruct (Rollup.Id x =? Rollup.Id u)%N eqn:Hxu; simpl; rewrite ?Hxu; [|done].
  destruct x as [i a fh ac sz b]. unfold apply_rollup_update. simpl.
  f_equal; lia.
Qed.

(** The rows not targeted by an update are left as they are. *)
Lemma update_map_untargeted {A} (key : A -> N) (f : A -> A) (l : list A) k :
  (forall x, key (f x) = key x) ->
  List.filter (fun y => negb (key y =? k))%N
    (map (fun x => if (key x =? k)%N then f x else x) l) =
  List.filter (fun y => negb (key y =? k))%N l.
Proof.
  intros Hk. rewrite filter_map_comm.
  2:{ intros x. destruct (key x =? k)%N eqn:E; [by rewrite Hk, E|by rewrite E]. }
  rewrite <- (map_id (List.filter _ l)) at 2.
  apply map_ext_in. intros x Hx. apply filter_In in Hx as [_ Hx].
  destruct (key x =? k)%N; [done|done].
Qed.

(** The row targeted by an update, in a table with unique ids. *)
Lemma update_map_targeted {A} (key : A -> N) (f : A -> A) (l : list A) x :
  (forall y, key (f y) = key y) -> NoDup (map key l) -> In x l ->
  List.filter (fun y => key y =? key x)%N
    (map (fun y => if (key y =? key x)%N then f y else y) l) = [f x].
Proof.
  intros Hk Hnd Hx. rewrite filter_map_comm.
  2:{ intros y. destruct (key y =? key x)%N eqn:E; [by rewrite Hk, E|by rewrite E]. }
  rewrite (filter_key_unique key l x Hnd Hx). simpl. by rewrite N.eqb_refl.
Qed.

(** C3 (delta reversibility). An UpdateAddresses call on the row [prior]
    (ids unique), followed by the inverse update (deltas negated, nonce
    set back to [prior]'s), gives back the table exactly; an UpdateRollups
    call followed by its inverse (size and actions count negated) does
    too. *)
Theorem Update_inverse_restores (tbl tbl' : AddressTable) (u prior : Address.t)
    (rtbl rtbl' : list Rollup.t) (ru : Rollup.t)
    (Hids : NoDup (map Address.Id tbl.(rows))) (Hprior : In prior tbl.(rows))
    (Hid : Address.Id prior = Address.Id u)
    (Hupd : UpdateAddresses tbl [u] = inr tbl')
    (Hrupd : UpdateRollups rtbl [ru] = inr rtbl') :
  UpdateAddresses tbl' [inverse_address_update u prior] = inr tbl /\
  UpdateRollups rtbl' [inverse_rollup_update ru] = inr rtbl.
Proof.
  split.
  - simpl in Hupd.
    rewrite (existsb_id_in Address.Id _ prior _ Hprior Hid) in Hupd.
    injection Hupd as <-. simpl.
    rewrite (existsb_id_in Address.Id _ (apply_address_update prior u)).
    + pose proof (update_address_map_inverse (rows tbl) u prior Hids Hprior Hid) as Hm.
      simpl in Hm. rewrite Hm. by destruct tbl.
    + apply in_map_iff. exists prior. split; [|done]. by rewrite Hid, N.eqb_refl.
    + done.
  - simpl in Hrupd.
    destruct (existsb (fun x => Rollup.Id x =? Rollup.Id ru)%N rtbl) eqn:Hex;
      [|discriminate].
    injection Hrupd as <-. simpl.
    apply existsb_exists in Hex as (x & Hx & Hxid).
    rewrite (existsb_id_in Rollup.Id _ (apply_rollup_update x ru)).
    + pose proof (update_rollup_map_inverse rtbl ru) as Hm.
      simpl in Hm. by rewrite Hm.
    + apply in_map_iff. exists x. split; [|done]. by rewrite Hxid.
    + simpl. by apply N.eqb_eq.
Qed.

(** C5 (update semantics). On a table with unique ids, UpdateAddresses
    with input [u] turns the row [x] with [u]'s id into [x] with
    actionsCount and signedTxCount increased by [u]'s values and nonce set
    to [u]'s, and leaves every other row as it is; UpdateRollups likewise
    adds [u]'s size and actions count to the row with [u]'s id. *)
Theorem Update_semantics (tbl : AddressTable) (u x : Address.t)
    (rtbl : list Rollup.t) (ru rx : Rollup.t)
    (Hids : NoDup (map Address.Id tbl.(rows))) (Hx : In x tbl.(rows))
    (Hid : Address.Id x = Address.Id u)
    (Hrids : NoDup (map Rollup.Id rtbl)) (Hrx : In rx rtbl)
    (Hrid : Rollup.Id rx = Rollup.Id ru) :
  (exists tbl', UpdateAddresses tbl [u] = inr tbl' /\
     List.filter (fun y => Address.Id y =? Address.Id u)%N tbl'.(rows) =
       [Address.mk (Address.Id x) (Address.Height x) (Address.Hash x)
          (Address.Nonce u)
          (Address.ActionsCount x + Address.ActionsCount u)
          (Address.SignedTxCount x + Address.SignedTxCount u)] /\
     List.filter (fun y => negb (Address.Id y =? Address.Id u))%N tbl'.(rows) =
       List.filter (fun y => negb (Address.Id y =? Address.Id u))%N tbl.(rows)) /\
  (exists rtbl', UpdateRollups rtbl [ru] = inr rtbl' /\
     List.filter (fun y => Rollup.Id y =? Rollup.Id ru)%N rtbl' =
       [Rollup.mk (Rollup.Id rx) (Rollup.AstriaId rx) (Rollup.FirstHeight rx)
          (Rollup.ActionsCount rx + Rollup.ActionsCount ru)
          (Rollup.Size rx + Rollup.Size ru) (Rollup.BridgeAddressId rx)] /\
     List.filter (fun y => negb (Rollup.Id y =? Rollup.Id ru))%N rtbl' =
       List.filter (fun y => negb (Rollup.Id y =? Rollup.Id ru))%N rtbl).
Proof.
  split.
  - simpl. rewrite (existsb_id_in Address.Id _ x _ Hx Hid).
    eexists. split; [reflexivity|]. simpl. split.
    + rewrite <- Hid. by apply (update_map_targeted Address.Id).
    + by apply (update_map_untargeted Address.Id).
  - simpl. rewrite (existsb_id_in Rollup.Id _ rx _ Hrx Hrid).
    eexists. split; [reflexivity|]. split.
    + rewrite <- Hrid. by apply (update_map_targeted Rollup.Id).
    + by apply (update_map_untargeted Rollup.Id).
Qed.

(* ------------------------------------------------------------------ *)
(** ** Validators, retention, empty rollbacks *)

Lemma filter_filter_andb {A} (p q : A -> bool) (l : list A) :
  List.filter p (List.filter q l) = List.filter (fun x => q x && p x) l.
Proof.
  induction l as [|x l IH]; simpl; [done|].
  destruct (q x); simpl; [destruct (p x); simpl|]; by rewrite IH.
Qed.

(** C7 (RollbackValidators boundary). RollbackValidators(h) keeps exactly
    the validators whose creation height is at most [h]: those created
    above [h] are deleted, those created at [h] are kept. *)
Theorem RollbackValidators_boundary (vs : list Validator.t) (h : Level) :
  exists vs', RollbackValidators vs h = inr vs' /\
    (forall v, In v vs' <-> In v vs /\ Validator.Height v <= h) /\
    (forall v, In v vs -> h < Validator.Height v -> ~ In v vs') /\
    (forall v, In v vs -> Validator.Height v = h -> In v vs').
Proof.
  eexists. split; [reflexivity|].
  assert (Hiff : forall v, In v (List.filter (fun v => Validator.Height v <=? h) vs) <->
                           In v vs /\ Validator.Height v <= h).
  { intros v. rewrite filter_In, Z.leb_le. done. }
  split; [exact Hiff|]. split.
  - intros v Hv Hlt Hin. apply Hiff in Hin. lia.
  - intros v Hv Heq. apply Hiff. split; [done|lia].
Qed.

(** C8 (retention monotonicity). For any window, RetentionBlockSignatures
    at boundary [h] keeps every signature of height at least [h - window]
    and adds no row; a second call with the same
    boundary removes nothing further, and a later call with a larger
    boundary acts as if the first call had not happened. *)
Theorem RetentionBlockSignatures_monotone (window : Z)
    (sigs : list BlockSignature.t) (h : Level) :
  exists sigs', RetentionBlockSignatures window sigs h = inr sigs' /\
    (forall s, In s sigs -> h - window <= BlockSignature.Height s -> In s sigs') /\
    (forall s, In s sigs' -> In s sigs) /\
    RetentionBlockSignatures window sigs' h = inr sigs' /\
    (forall h2, h <= h2 ->
       RetentionBlockSignatures window sigs' h2 = RetentionBlockSignatures window sigs h2).
Proof.
  eexists. split; [reflexivity|]. unfold RetentionBlockSignatures.
  split; [|split; [|split]].
  - intros s Hs Hh. apply filter_In. split; [done|].
    apply negb_true_iff, Z.ltb_ge. lia.
  - intros s Hs. by apply filter_In in Hs as [Hs _].
  - f_equal.
    apply filter_all. apply Forall_forall. intros s Hs.
    apply list_elem_of_In, filter_In in Hs as [_ Hs]. done.
  - intros h2 Hh2. f_equal. rewrite filter_filter_andb.
    apply filter_ext. intros s.
    destruct (BlockSignature.Height s <? h - window) eqn:E1;
    destruct (BlockSignature.Height s <? h2 - window) eqn:E2; simpl; try done.
    apply Z.ltb_lt in E1. apply Z.ltb_ge in E2. lia.
Qed.


(* ------------------------------------------------------------------ *)
(** ** Unit of work *)

Section UnitOfWorkFacts.
Variable DB : Type.

Lemma run_app (u : UnitOfWork DB) (cs1 cs2 : list (Cmd DB)) :
  (run DB u (cs1 ++ cs2)).2 = (run DB (run DB u cs1).2 cs2).2.
Proof.
  revert u. induction cs1 as [|c cs1 IH]; intros u; simpl; [done|].
  destruct (step DB u c) as [r u1].
  pose proof (IH u1) as IH1.
  destruct (run DB u1 (cs1 ++ cs2)) as [rs u2].
  destruct (run DB u1 cs1) as [rs1 u3]. simpl in *. rewrite IH1.
  by destruct (run DB u3 cs2).
Qed.

Lemma run_aborted (u : UnitOfWork DB) (cs : list (Cmd DB)) :
  aborted DB u = true -> (run DB u cs).2 = u.
Proof.
  intros Ha. induction cs as [|c cs IH]; simpl; [done|].
  unfold step. rewrite Ha.
  destruct (run DB u cs) as [rs u2]. simpl in *. done.
Qed.

(** Calls alone never change what is committed. *)
Lemma run_calls_committed (u : UnitOfWork DB) (cs : list (Cmd DB)) :
  forallb (is_call DB) cs = true -> committed DB (run DB u cs).2 = committed DB u.
Proof.
  revert u. induction cs as [|c cs IH]; intros u Hc; simpl; [done|].
  simpl in Hc. apply andb_true_iff in Hc as [Hc Hcs].
  assert (Hstep : committed DB (step DB u c).2 = committed DB u).
  { unfold step. destruct (aborted DB u); [done|].
    destruct c as [op|]; [|discriminate]. by destruct (op (working DB u)). }
  destruct (step DB u c) as [r u1] eqn:Hs. simpl in Hstep.
  pose proof (IH u1 Hcs) as IH1.
  destruct (run DB u1 cs) as [rs u2]. simpl in *. congruence.
Qed.

(** C6, as amended (atomicity up to the last flush). When a save or
    update call fails before the unit of work's first flush, the
    database visible after close is the one before the unit of work,
    whatever commands follow; and in general, once a call has failed,
    nothing more is committed: what is visible is exactly what was
    flushed before the failure. *)
Theorem unit_of_work_atomic_until_flush (db : DB) (pre post : list (Cmd DB))
    (op : DB -> Result DB)
    (Hpre : forallb (is_call DB) pre = true)
    (Hfail : aborted DB (run DB (BeginTransaction DB db) (pre ++ [Call op])).2 = true) :
  unit_of_work DB db (pre ++ Call op :: post) = db /\
  (forall (u : UnitOfWork DB) (cs rest : list (Cmd DB)),
     aborted DB (run DB u cs).2 = true ->
     committed DB (run DB u (cs ++ rest)).2 = committed DB (run DB u cs).2).
Proof.
  split.
  - unfold unit_of_work, Close.
    replace (pre ++ Call op :: post) with ((pre ++ [Call op]) ++ post)
      by (by rewrite <- app_assoc).
    rewrite run_app, run_aborted by done.
    rewrite run_calls_committed; [done|].
    rewrite forallb_app, Hpre. done.
  - intros u cs rest Ha. by rewrite run_app, run_aborted.
Qed.
End UnitOfWorkFacts.

(** C6, as stated, fails: a unit of work that saves a row, flushes, and
    then has a failing call ends with the saved row visible. *)
Lemma unit_of_work_flushed_row_survives_failure :
  let cmds := [Call (fun d : list nat => inr (1%nat :: d)); Flush;
               Call (fun _ => inl ValidationError)] in
  (run (list nat) (BeginTransaction (list nat) []) cmds).1 =
    [inr tt; inr tt; inl ValidationError] /\
  unit_of_work (list nat) [] cmds = [1%nat] /\
  unit_of_work (list nat) [] cmds <> [].
Proof. simpl. split; [reflexivity|]. split; [reflexivity|]. discriminate. Qed.

(* ------------------------------------------------------------------ *)
(** ** Statistics series *)

Module StatsFacts.
Import Stats.
Local Open Scope string_scope.
Local Open Scope Z_scope.

Ltac solve_string_cases E :=
  repeat match type of E with
  | context [String.eqb ?a ?b] =>
      let Hab := fresh "Hab" in
      destruct (String.eqb a b) eqn:Hab;
      [apply String.eqb_eq in Hab; subst; simpl; tauto|]
  end; discriminate.

Lemma series_view_in tf v : series_view tf = Some v -> In tf timeframes.
Proof. intros E. unfold series_view in E. solve_string_cases E. Qed.

Lemma rollup_series_view_in tf v : rollup_series_view tf = Some v -> In tf timeframes.
Proof. intros E. unfold rollup_series_view in E. solve_string_cases E. Qed.

Lemma series_columns_in name cs : series_columns name = Some cs -> In name series_names.
Proof. intros E. unfold series_columns in E. solve_string_cases E. Qed.

Lemma rollup_series_columns_in name cs :
  rollup_series_columns name = Some cs -> In name rollup_series_names.
Proof. intros E. unfold rollup_series_columns in E. solve_string_cases E. Qed.

Lemma series_view_total tf : In tf timeframes -> exists v, series_view tf = Some v.
Proof. intros H. repeat destruct H as [<-|H]; try done; eexists; reflexivity. Qed.

Lemma rollup_series_view_total tf :
  In tf timeframes -> exists v, rollup_series_view tf = Some v.
Proof. intros H. repeat destruct H as [<-|H]; try done; eexists; reflexivity. Qed.

Lemma series_columns_total name :
  In name series_names -> exists cs, series_columns name = Some cs.
Proof. intros H. repeat destruct H as [<-|H]; try done; eexists; reflexivity. Qed.

Lemma rollup_series_columns_total name :
  In name rollup_series_names -> exists cs, rollup_series_columns name = Some cs.
Proof. intros H. repeat destruct H as [<-|H]; try done; eexists; reflexivity. Qed.

Lemma time_bounds_in_range req r :
  forallb (holds r) (time_bounds req) = in_range req r.
Proof.
  unfold time_bounds, in_range.
  destruct (IsZero (From req)), (IsZero (To req)); simpl;
    rewrite ?andb_true_r; done.
Qed.

Lemma rollup_bounds_in_range id req r :
  forallb (holds r) (RollupIdEq id :: time_bounds req) =
  (rollup_id r =? id)%N && in_range req r.
Proof. simpl. by rewrite time_bounds_in_range. Qed.

Lemma length_firstn_le {A} n (l : list A) : (length (firstn n l) <= n)%nat.
Proof. rewrite length_firstn. lia. Qed.

(** C10 (series queries). Series and RollupSeries return an error and no
    data, without sending any query, when the timeframe is not
    hour/day/month or the name is not one of their series names.
    Otherwise they send one query and return no error and at most 100
    items: those of the first rows of the view (of the rollup, for
    RollupSeries) with [ts >= From] when [From] is non-zero and
    [ts < To] when [To] is non-zero. *)
Theorem Series_contract (db : Db) (timeframe name : string) (req : SeriesRequest)
    (rollupId : N) :
  ((~ In timeframe timeframes \/ ~ In name series_names) ->
     exists e, Series timeframe name req db = (([], Some e), [])) /\
  ((~ In timeframe timeframes \/ ~ In name rollup_series_names) ->
     exists e, RollupSeries rollupId timeframe name req db = (([], Some e), [])) /\
  (In timeframe timeframes -> In name series_names ->
     exists view, series_view timeframe = Some view /\
     let '((resp, err), qs) := Series timeframe name req db in
     err = None /\ length qs = 1%nat /\ (length resp <= 100)%nat /\
     map Time resp = map ts (firstn 100 (List.filter (in_range req) (db view)))) /\
  (In timeframe timeframes -> In name rollup_series_names ->
     exists view, rollup_series_view timeframe = Some view /\
     let '((resp, err), qs) := RollupSeries rollupId timeframe name req db in
     err = None /\ length qs = 1%nat /\ (length resp <= 100)%nat /\
     map Time resp =
       map ts (firstn 100 (List.filter
                 (fun r => (rollup_id r =? rollupId)%N && in_range req r) (db view)))).
Proof.
  split; [|split; [|split]].
  - intros Hbad. unfold Series.
    destruct (series_view timeframe) as [v|] eqn:Ev; [|by eexists].
    destruct (series_columns name) as [cs|] eqn:Ec; [|by eexists].
    exfalso. destruct Hbad as [Hb|Hb]; apply Hb;
      [by apply (series_view_in _ v)|by apply (series_columns_in _ cs)].
  - intros Hbad. unfold RollupSeries.
    destruct (rollup_series_view timeframe) as [v|] eqn:Ev; [|by eexists].
    destruct (rollup_series_columns name) as [cs|] eqn:Ec; [|by eexists].
    exfalso. destruct Hbad as [Hb|Hb]; apply Hb;
      [by apply (rollup_series_view_in _ v)|by apply (rollup_series_columns_in _ cs)].
  - intros Ht Hn.
    destruct (series_view_total _ Ht) as [v Ev].
    destruct (series_columns_total _ Hn) as [cs Ec].
    exists v. split; [done|]. unfold Series. rewrite Ev, Ec. simpl.
    split; [done|]. split; [done|].
    rewrite (List.filter_ext _ _ (time_bounds_in_range req)).
    split; [rewrite length_map; apply length_firstn_le|].
    by rewrite map_map.
  - intros Ht Hn.
    destruct (rollup_series_view_total _ Ht) as [v Ev].
    destruct (rollup_series_columns_total _ Hn) as [cs Ec].
    exists v. split; [done|]. unfold RollupSeries. rewrite Ev, Ec. simpl.
    split; [done|]. split; [done|].
    rewrite (List.filter_ext _ _ (rollup_bounds_in_range rollupId req)).
    split; [rewrite length_map; apply length_firstn_le|].
    by rewrite map_map.
Qed.
End StatsFacts.

(* ------------------------------------------------------------------ *)
(** ** Series queries: request bounds, errors, columns read *)

Module StatsMore.
Import Stats StatsFacts.
Local Open Scope string_scope.
Local Open Scope Z_scope.

Definition series_item (cs : list (string * string)) (r : ViewRow) : SeriesItem :=
  mkSeriesItem r.(ts) (column r cs "value") (column r cs "max") (column r cs "min").

Lemma Series_run tf name req db v cs :
  series_view tf = Some v -> series_columns name = Some cs ->
  Series tf name req db =
    ((map (series_item cs) (firstn 100 (List.filter (in_range req) (db v))), None),
     [mkQuery v cs (time_bounds req) 100]).
Proof.
  intros Ev Ec. unfold Series. rewrite Ev, Ec. simpl.
  by rewrite (List.filter_ext _ _ (time_bounds_in_range req)).
Qed.

Lemma RollupSeries_run id tf name req db v cs :
  rollup_series_view tf = Some v -> rollup_series_columns name = Some cs ->
  RollupSeries id tf name req db =
    ((map (series_item cs)
        (firstn 100 (List.filter (fun r => (rollup_id r =? id)%N && in_range req r)
                       (db v))), None),
     [mkQuery v cs (RollupIdEq id :: time_bounds req) 100]).
Proof.
  intros Ev Ec. unfold RollupSeries. rewrite Ev, Ec. simpl.
  by rewrite (List.filter_ext _ _ (rollup_bounds_in_range id req)).
Qed.

Lemma IsZero_pos t : 0 < t -> IsZero t = false.
Proof. intros H. unfold IsZero, zero_time. apply Z.eqb_neq. lia. Qed.

(** NewSeriesRequest composed with the Series filter: a [from] or [to]
    argument that is zero or negative sets no bound; a positive one
    bounds [ts] from below (inclusive) or above (exclusive). *)
Theorem NewSeriesRequest_in_range from to r :
  in_range (NewSeriesRequest from to) r =
  ((from <=? 0) || (from <=? ts r)) && ((to <=? 0) || (ts r <? to)).
Proof.
  unfold in_range, NewSeriesRequest. simpl.
  destruct (Z.ltb_spec 0 from) as [Hf|Hf], (Z.ltb_spec 0 to) as [Ht|Ht];
    rewrite ?(IsZero_pos _ Hf), ?(IsZero_pos _ Ht);
    unfold IsZero; rewrite ?Z.eqb_refl;
    destruct (Z.leb_spec from 0), (Z.leb_spec to 0); simpl; try lia; done.
Qed.

(** Series and RollupSeries check the timeframe before the name: an
    unknown timeframe is reported as such whatever the name; with a known
    timeframe, an unknown name is reported as an unknown series name. No
    query is sent in either case. *)
Theorem Series_error_precedence db tf name req rollupId :
  (~ In tf timeframes ->
     Series tf name req db = (([], Some (UnexpectedTimeframe tf)), []) /\
     RollupSeries rollupId tf name req db = (([], Some (UnexpectedTimeframe tf)), [])) /\
  (In tf timeframes -> ~ In name series_names ->
     Series tf name req db = (([], Some (UnexpectedSeriesName name)), [])) /\
  (In tf timeframes -> ~ In name rollup_series_names ->
     RollupSeries rollupId tf name req db = (([], Some (UnexpectedSeriesName name)), [])).
Proof.
  split; [|split].
  - intros Ht. unfold Series, RollupSeries.
    destruct (series_view tf) as [v|] eqn:Ev;
      [exfalso; apply Ht; by apply (series_view_in _ v)|].
    destruct (rollup_series_view tf) as [v|] eqn:Ev';
      [exfalso; apply Ht; by apply (rollup_series_view_in _ v)|].
    done.
  - intros Ht Hn. destruct (series_view_total _ Ht) as [v Ev].
    unfold Series. rewrite Ev.
    destruct (series_columns name) as [cs|] eqn:Ec;
      [exfalso; apply Hn; by apply (series_columns_in _ cs)|done].
  - intros Ht Hn. destruct (rollup_series_view_total _ Ht) as [v Ev].
    unfold RollupSeries. rewrite Ev.
    destruct (rollup_series_columns name) as [cs|] eqn:Ec;
      [exfalso; apply Hn; by apply (rollup_series_columns_in _ cs)|done].
Qed.

(** The columns Series reads: each item's [Value] is the view's column
    named like the series; for tps, bps and rbps, [Max] and [Min] are the
    [<name>_max] and [<name>_min] columns, and every other series leaves
    them empty. *)
Theorem Series_columns_read db tf name req :
  In tf timeframes -> In name series_names ->
  exists v, series_view tf = Some v /\
  let resp := (Series tf name req db).1.1 in
  let rows := firstn 100 (List.filter (in_range req) (db v)) in
  map Value resp = map (fun r => col_value r name) rows /\
  (if existsb (String.eqb name) minmax_series
   then map Max resp = map (fun r => col_value r (name ++ "_max")) rows /\
        map Min resp = map (fun r => col_value r (name ++ "_min")) rows
   else Forall (fun i => Max i = "" /\ Min i = "") resp).
Proof.
  intros Ht Hn. destruct (series_view_total _ Ht) as [v Ev].
  exists v. split; [done|].
  destruct (series_columns_total _ Hn) as [cs Ec].
  intros resp rows. subst resp rows.
  rewrite (Series_run _ _ _ _ _ _ Ev Ec). cbn [fst].
  rewrite !map_map.
  repeat destruct Hn as [<-|Hn]; try done; injection Ec as <-;
    (split; [by apply map_ext|]); cbn -[firstn List.filter];
    first [split; by apply map_ext
          |apply List.Forall_forall; intros i Hi; apply in_map_iff in Hi as (r & <- & _);
           split; reflexivity].
Qed.

(** The columns RollupSeries reads: each item's [Value] is the rollup
    view's column named like the series; [Max] and [Min] stay empty. *)
Theorem RollupSeries_columns_read db rollupId tf name req :
  In tf timeframes -> In name rollup_series_names ->
  exists v, rollup_series_view tf = Some v /\
  let resp := (RollupSeries rollupId tf name req db).1.1 in
  map Value resp =
    map (fun r => col_value r name)
      (firstn 100 (List.filter (fun r => (rollup_id r =? rollupId)%N && in_range req r)
                     (db v))) /\
  Forall (fun i => Max i = "" /\ Min i = "") resp.
Proof.
  intros Ht Hn. destruct (rollup_series_view_total _ Ht) as [v Ev].
  exists v. split; [done|].
  destruct (rollup_series_columns_total _ Hn) as [cs Ec].
  intros resp. subst resp.
  rewrite (RollupSeries_run _ _ _ _ _ _ _ Ev Ec). cbn [fst].
  rewrite !map_map.
  repeat destruct Hn as [<-|Hn]; try done; injection Ec as <-;
    (split; [by apply map_ext|]);
    apply List.Forall_forall; intros i Hi; apply in_map_iff in Hi as (r & <- & _);
    split; reflexivity.
Qed.

(** The 100-row page: Series returns every matching row when fewer than
    100 match, and exactly 100 items otherwise. *)
Theorem Series_page_size db tf name req rollupId :
  In tf timeframes ->
  (In name series_names ->
     exists v, series_view tf = Some v /\
     length (Series tf name req db).1.1 =
       Nat.min 100 (length (List.filter (in_range req) (db v)))) /\
  (In name rollup_series_names ->
     exists v, rollup_series_view tf = Some v /\
     length (RollupSeries rollupId tf name req db).1.1 =
       Nat.min 100 (length (List.filter
                     (fun r => (rollup_id r =? rollupId)%N && in_range req r) (db v)))).
Proof.
  intros Ht. split; intros Hn.
  - destruct (series_view_total _ Ht) as [v Ev].
    destruct (series_columns_total _ Hn) as [cs Ec].
    exists v. split; [done|].
    rewrite (Series_run _ _ _ _ _ _ Ev Ec). simpl.
    by rewrite length_map, length_firstn.
  - destruct (rollup_series_view_total _ Ht) as [v Ev].
    destruct (rollup_series_columns_total _ Hn) as [cs Ec].
    exists v. split; [done|].
    rewrite (RollupSeries_run _ _ _ _ _ _ _ Ev Ec). simpl.
    by rewrite length_map, length_firstn.
Qed.

(** An empty window: when [0 < to <= from], the request built by
    NewSeriesRequest matches no row, so Series and RollupSeries return no
    item (and no error, for a known timeframe and name). *)
Theorem Series_empty_window db tf name from to rollupId :
  0 < to -> to <= from ->
  (Series tf name (NewSeriesRequest from to) db).1.1 = [] /\
  (RollupSeries rollupId tf name (NewSeriesRequest from to) db).1.1 = [].
Proof.
  intros Ht Hf.
  assert (Hnone : forall r, in_range (NewSeriesRequest from to) r = false).
  { intros r. rewrite NewSeriesRequest_in_range.
    destruct (Z.leb_spec from 0), (Z.leb_spec from (ts r)),
             (Z.leb_spec to 0), (Z.ltb_spec (ts r) to); simpl; try lia; done. }
  split.
  - destruct (series_view tf) as [v|] eqn:Ev; [|by unfold Series; rewrite Ev].
    destruct (series_columns name) as [cs|] eqn:Ec;
      [|by unfold Series; rewrite Ev, Ec].
    rewrite (Series_run _ _ _ _ _ _ Ev Ec). simpl.
    rewrite filter_none; [done|]. apply Forall_forall. intros r _. apply Hnone.
  - destruct (rollup_series_view tf) as [v|] eqn:Ev;
      [|by unfold RollupSeries; rewrite Ev].
    destruct (rollup_series_columns name) as [cs|] eqn:Ec;
      [|by unfold RollupSeries; rewrite Ev, Ec].
    rewrite (RollupSeries_run _ _ _ _ _ _ _ Ev Ec). simpl.
    rewrite filter_none; [done|]. apply Forall_forall. intros r _.
    by rewrite Hnone, andb_false_r.
Qed.
End StatsMore.

(* ------------------------------------------------------------------ *)
(** ** Action queries: filters and joins *)

Module ActionQueriesFacts.
Import ActionQueries.

Lemma filter_nil_find {A} (p : A -> bool) (l : list A) :
  List.filter p l = [] -> List.find p l = None.
Proof. induction l as [|x l IH]; simpl; [done|]. destruct (p x); [discriminate|auto]. Qed.

Lemma filter_cons_find {A} (p : A -> bool) (l : list A) m ms :
  List.filter p l = m :: ms -> List.find p l = Some m.
Proof. induction l as [|x l IH]; simpl; [discriminate|]. destruct (p x); [congruence|auto]. Qed.

Lemma map_id_pointwise {A} (f : A -> A) (l : list A) :
  (forall x, f x = x) -> map f l = l.
Proof. intros Hf. induction l as [|x l IH]; simpl; [done|]. by rewrite Hf, IH. Qed.

Lemma option_map_ident {A} (o : option A) : option_map (fun x => x) o = o.
Proof. by destruct o. Qed.

Lemma left_join_cons {L R} (on : L -> R -> bool) l (ls : list L) (rs : list R) :
  left_join on (l :: ls) rs =
  match List.filter (on l) rs with
  | [] => [(l, None)]
  | ms => map (fun m => (l, Some m)) ms
  end ++ left_join on ls rs.
Proof. reflexivity. Qed.

(** With at most one right row per left row, a left join keeps
    exactly the left rows, each paired with its match. *)
Lemma left_join_unique {L R} (on : L -> R -> bool) (ls : list L) (rs : list R) :
  (forall l, (length (List.filter (on l) rs) <= 1)%nat) ->
  left_join on ls rs = map (fun l => (l, List.find (on l) rs)) ls.
Proof.
  intros H1. induction ls as [|l ls IH]; [done|].
  rewrite left_join_cons, IH. specialize (H1 l).
  destruct (List.filter (on l) rs) as [|m [|m' ms]] eqn:E; simpl in *.
  - by rewrite (filter_nil_find _ _ E).
  - by rewrite (filter_cons_find _ _ _ _ E).
  - lia.
Qed.

Section Keys.
Context {R : Type} (key : R -> N).

Lemma filter_key_le1 (rs : list R) k :
  NoDup (map key rs) -> (length (List.filter (fun t => (key t =? k)%N) rs) <= 1)%nat.
Proof.
  induction rs as [|t rs IH]; simpl; [lia|]. intros Hnd. inversion Hnd as [|? ? Hn Hnd']. subst.
  destruct (N.eqb_spec (key t) k) as [<-|_]; simpl; [|auto].
  rewrite filter_none; [simpl; lia|].
  apply Forall_forall. intros t' Ht'. apply N.eqb_neq. intros Heq. apply Hn.
  rewrite <- Heq. apply list_elem_of_In, in_map. by apply list_elem_of_In.
Qed.

Lemma find_key_some (rs : list R) t :
  NoDup (map key rs) -> In t rs ->
  List.find (fun t' => (key t' =? key t)%N) rs = Some t.
Proof.
  induction rs as [|t0 rs IH]; simpl; [done|]. intros Hnd Hin.
  inversion Hnd as [|? ? Hn Hnd']. subst.
  destruct (N.eqb_spec (key t0) (key t)) as [Heq|Hne].
  - destruct Hin as [<-|Hin]; [done|].
    exfalso. apply Hn. rewrite Heq. by apply list_elem_of_In, in_map.
  - destruct Hin as [<-|Hin]; [done|]. auto.
Qed.

Lemma find_key_none (rs : list R) k :
  (forall t, In t rs -> key t <> k) -> List.find (fun t => (key t =? k)%N) rs = None.
Proof.
  intros H. induction rs as [|t rs IH]; simpl; [done|].
  destruct (N.eqb_spec (key t) k) as [Heq|_].
  - exfalso. by apply (H t); [left|].
  - apply IH. intros t' Ht'. apply H. by right.
Qed.

(** The joined value of a key: the row with that key, or [NULL]. *)
Lemma find_key_spec {B} (f : R -> B) (rs : list R) k :
  NoDup (map key rs) ->
  (forall t, In t rs -> key t = k ->
     option_map f (List.find (fun t => (key t =? k)%N) rs) = Some (f t)) /\
  ((forall t, In t rs -> key t <> k) ->
     option_map f (List.find (fun t => (key t =? k)%N) rs) = None).
Proof.
  intros Hnd. split.
  - intros t Hin <-. by rewrite (find_key_some _ _ Hnd Hin).
  - intros H. by rewrite (find_key_none _ _ H).
Qed.
End Keys.

Section Scoped.
Variable scoped : forall A : Type, Scopes -> list A -> list A.
(** The scopes only narrow the result (they order, skip and cut it). *)
Hypothesis scoped_incl : forall A s (l : list A) x, In x (scoped A s l) -> In x l.
Variable mask_strings : N -> list string.

Lemma ByBlock_eq actions txs height limit offset :
  NoDup (map Tx.Id txs) ->
  ByBlock scoped actions txs height limit offset =
  map (fun a => mkActionWithTx a
         (option_map Tx.Hash (List.find (fun t => (Tx.Id t =? Action.TxId a)%N) txs)))
    (scoped _ (mkScopes None limit offset)
       (List.filter (fun a => Action.Height a =? height) actions)).
Proof.
  intros Hnd. unfold ByBlock. rewrite left_join_unique.
  - by rewrite map_map.
  - intros a. by apply (filter_key_le1 Tx.Id).
Qed.

Lemma ByAddress_eq rows actions txs addressId filters :
  NoDup (map Tx.Id txs) -> NoDup (map Action.Id actions) ->
  ByAddress scoped mask_strings rows actions txs addressId filters =
  map (fun r => mkAddressActionOut r
         (List.find (fun a => (Action.Id a =? aa_ActionId r)%N) actions)
         (option_map Tx.Hash (List.find (fun t => (Tx.Id t =? aa_TxId r)%N) txs)))
    (by_address_query scoped mask_strings rows addressId filters).
Proof.
  intros Ht Ha. unfold ByAddress.
  rewrite (left_join_unique (fun r t => (Tx.Id t =? aa_TxId r)%N));
    [|intros r; by apply (filter_key_le1 Tx.Id)].
  rewrite left_join_unique; [|intros p; by apply (filter_key_le1 Action.Id)].
  by rewrite !map_map.
Qed.

Lemma ByRollup_eq rows actions txs rollupId limit offset sort :
  NoDup (map Tx.Id txs) -> NoDup (map Action.Id actions) ->
  ByRollup scoped rows actions txs rollupId limit offset sort =
  map (fun r => mkRollupActionOut r
         (List.find (fun a => (Action.Id a =? ra_ActionId r)%N) actions)
         (option_map Tx.Hash (List.find (fun t => (Tx.Id t =? ra_TxId r)%N) txs)))
    (by_rollup_query scoped rows rollupId limit offset sort).
Proof.
  intros Ht Ha. unfold ByRollup.
  rewrite (left_join_unique (fun r t => (Tx.Id t =? ra_TxId r)%N));
    [|intros r; by apply (filter_key_le1 Tx.Id)].
  rewrite left_join_unique; [|intros p; by apply (filter_key_le1 Action.Id)].
  by rewrite !map_map.
Qed.
End Scoped.

(** Action.ByBlock: with transaction ids unique (the primary key), the
    join with [tx] neither drops nor repeats an action: the result holds
    the page of the actions at the height, each once (in some order), each
    at that height and
    carrying the hash of the transaction with its [tx_id], or no hash
    when no transaction has that id. *)
Theorem ByBlock_spec
    (scoped : forall A : Type, Scopes -> list A -> list A)
    (scoped_incl : forall A s (l : list A) x, In x (scoped A s l) -> In x l)
    actions txs height limit offset :
  NoDup (map Tx.Id txs) ->
  let res := ByBlock scoped actions txs height limit offset in
  map awt_Action res ≡ₚ
    scoped _ (mkScopes None limit offset)
      (List.filter (fun a => Action.Height a =? height) actions) /\
  Forall (fun o =>
    In (awt_Action o) actions /\ Action.Height (awt_Action o) = height /\
    (forall t, In t txs -> Tx.Id t = Action.TxId (awt_Action o) ->
       awt_TxHash o = Some (Tx.Hash t)) /\
    ((forall t, In t txs -> Tx.Id t <> Action.TxId (awt_Action o)) ->
       awt_TxHash o = None)) res.
Proof.
  intros Hnd res. subst res. rewrite ByBlock_eq by done.
  split; [by rewrite map_map, map_id_pointwise|].
  apply List.Forall_forall. intros o Ho.
  apply in_map_iff in Ho as (a & <- & Ha). simpl.
  apply scoped_incl, filter_In in Ha as [Hin Hh].
  destruct (find_key_spec Tx.Id Tx.Hash txs (Action.TxId a) Hnd) as [Hs Hn].
  repeat split; [done|lia|done|done].
Qed.

(** Action.ByTxId: every returned action is a stored action of that
    transaction. *)
Theorem ByTxId_spec
    (scoped : forall A : Type, Scopes -> list A -> list A)
    (scoped_incl : forall A s (l : list A) x, In x (scoped A s l) -> In x l)
    actions txId limit offset :
  Forall (fun a => In a actions /\ Action.TxId a = txId)
    (ByTxId scoped actions txId limit offset).
Proof.
  apply List.Forall_forall. intros a Ha.
  apply scoped_incl, filter_In in Ha as [Hin Ht].
  split; [done|]. by apply N.eqb_eq.
Qed.

(** Action.ByAddress: with transaction and action ids unique, the two
    joins neither drop nor repeat a row: the result holds the page of the
    address's [address_action] rows, each once (in some order). Each row
    is one of the
    address; when the filter's action-type mask has a bit set, its action
    type is one the mask names; it carries the action with its
    [action_id] and the hash of the transaction with its [tx_id], or
    nothing when no such action or transaction is stored. *)
Theorem ByAddress_spec
    (scoped : forall A : Type, Scopes -> list A -> list A)
    (scoped_incl : forall A s (l : list A) x, In x (scoped A s l) -> In x l)
    (mask_strings : N -> list string)
    rows actions txs addressId filters :
  NoDup (map Tx.Id txs) -> NoDup (map Action.Id actions) ->
  let res := ByAddress scoped mask_strings rows actions txs addressId filters in
  map aao_Row res ≡ₚ by_address_query scoped mask_strings rows addressId filters /\
  Forall (fun o =>
    let r := aao_Row o in
    In r rows /\ aa_AddressId r = addressId /\
    ((0 < Bits (ActionTypes filters))%N ->
       In (aa_ActionType r) (mask_strings (Bits (ActionTypes filters)))) /\
    (forall a, In a actions -> Action.Id a = aa_ActionId r -> aao_Action o = Some a) /\
    ((forall a, In a actions -> Action.Id a <> aa_ActionId r) -> aao_Action o = None) /\
    (forall t, In t txs -> Tx.Id t = aa_TxId r -> aao_TxHash o = Some (Tx.Hash t)) /\
    ((forall t, In t txs -> Tx.Id t <> aa_TxId r) -> aao_TxHash o = None)) res.
Proof.
  intros Ht Ha res. subst res. rewrite ByAddress_eq by done.
  split; [by rewrite map_map, map_id_pointwise|].
  apply List.Forall_forall. intros o Ho.
  apply in_map_iff in Ho as (r & <- & Hr). simpl.
  unfold by_address_query in Hr. apply scoped_incl in Hr.
  assert (Hr' : In r rows /\ aa_AddressId r = addressId /\
    ((0 < Bits (ActionTypes filters))%N ->
       In (aa_ActionType r) (mask_strings (Bits (ActionTypes filters))))).
  { destruct (N.ltb_spec 0 (Bits (ActionTypes filters))) as [Hb|Hb].
    - apply filter_In in Hr as [Hr Hty]. apply filter_In in Hr as [Hin Hid].
      apply existsb_exists in Hty as (s & Hs & Heq).
      apply String.eqb_eq in Heq. subst s.
      split; [done|]. split; [by apply N.eqb_eq|done].
    - apply filter_In in Hr as [Hin Hid].
      split; [done|]. split; [by apply N.eqb_eq|lia]. }
  destruct Hr' as (Hin & Hid & Hty).
  destruct (find_key_spec Tx.Id Tx.Hash txs (aa_TxId r) Ht) as [Hts Htn].
  destruct (find_key_spec Action.Id (fun a => a) actions (aa_ActionId r) Ha) as [Has Han].
  rewrite option_map_ident in Has, Han.
  repeat split; auto.
Qed.

(** Action.ByRollup: with transaction and action ids unique, the result
    holds the page of the rollup's [rollup_action] rows, each once (in
    some order), each of
    that rollup and carrying the action with its [action_id] and the hash
    of the transaction with its [tx_id], or nothing when none is stored. *)
Theorem ByRollup_spec
    (scoped : forall A : Type, Scopes -> list A -> list A)
    (scoped_incl : forall A s (l : list A) x, In x (scoped A s l) -> In x l)
    rows actions txs rollupId limit offset sort :
  NoDup (map Tx.Id txs) -> NoDup (map Action.Id actions) ->
  let res := ByRollup scoped rows actions txs rollupId limit offset sort in
  map rao_Row res ≡ₚ by_rollup_query scoped rows rollupId limit offset sort /\
  Forall (fun o =>
    let r := rao_Row o in
    In r rows /\ ra_RollupId r = rollupId /\
    (forall a, In a actions -> Action.Id a = ra_ActionId r -> rao_Action o = Some a) /\
    ((forall a, In a actions -> Action.Id a <> ra_ActionId r) -> rao_Action o = None) /\
    (forall t, In t txs -> Tx.Id t = ra_TxId r -> rao_TxHash o = Some (Tx.Hash t)) /\
    ((forall t, In t txs -> Tx.Id t <> ra_TxId r) -> rao_TxHash o = None)) res.
Proof.
  intros Ht Ha res. subst res. rewrite ByRollup_eq by done.
  split; [by rewrite map_map, map_id_pointwise|].
  apply List.Forall_forall. intros o Ho.
  apply in_map_iff in Ho as (r & <- & Hr). simpl.
  unfold by_rollup_query in Hr. apply scoped_incl, filter_In in Hr as [Hin Hid].
  destruct (find_key_spec Tx.Id Tx.Hash txs (ra_TxId r) Ht) as [Hts Htn].
  destruct (find_key_spec Action.Id (fun a => a) actions (ra_ActionId r) Ha) as [Has Han].
  rewrite option_map_ident in Has, Han.
  repeat split; auto. by apply N.eqb_eq.
Qed.
End ActionQueriesFacts.

(* ------------------------------------------------------------------ *)
(** ** Genesis constants *)

Module GenesisFacts.
Import Genesis.
Local Open Scope string_scope.

(** The value stored under a key (the first constant with it). *)
Definition lookup_constant (k : ModuleName * string) (cs : list Constant)
  : option string :=
  option_map Value (List.find (fun x => bool_decide (key x = k)) cs).

Lemma parsed_keys_nodup : NoDup parsed_keys.
Proof. apply (bool_decide_unpack _). vm_compute. reflexivity. Qed.

Lemma parseConstants_app D a c cs :
  parseConstants D a c cs = (cs ++ parseConstants D a c [])%list.
Proof. reflexivity. Qed.

Lemma parseConstants_new_keys D a c :
  map key (parseConstants D a c []) = parsed_keys.
Proof. reflexivity. Qed.

Lemma lookup_constant_app k cs1 cs2 :
  Forall (fun x => key x <> k) cs1 ->
  lookup_constant k (cs1 ++ cs2)%list = lookup_constant k cs2.
Proof.
  unfold lookup_constant. induction 1 as [|x l Hx _ IH]; [done|]. simpl.
  by rewrite bool_decide_eq_false_2.
Qed.

Lemma Forall_key_not_parsed cs k :
  k ∈ parsed_keys -> Forall (fun x => key x ∉ parsed_keys) cs ->
  Forall (fun x => key x <> k) cs.
Proof.
  intros Hk HF. eapply Forall_impl; [exact HF|]. intros x Hx Heq. apply Hx. by rewrite Heq.
Qed.

(** Splitting at commas undoes [Join] with a comma. *)
Lemma split_comma_no_comma s : no_comma s = true -> split_comma s = [s].
Proof.
  induction s as [|ch s IH]; [done|]. simpl.
  intros [Hc Hs]%andb_prop. apply negb_true_iff in Hc. rewrite Hc, IH by done. done.
Qed.

Lemma split_comma_sep s1 s2 :
  no_comma s1 = true -> split_comma (s1 ++ "," ++ s2) = s1 :: split_comma s2.
Proof.
  induction s1 as [|ch s1 IH]; [done|]. simpl in *.
  intros [Hc Hs]%andb_prop. apply negb_true_iff in Hc. rewrite Hc, IH by done. done.
Qed.

Lemma split_comma_Join l :
  l <> [] -> Forall (fun s => no_comma s = true) l -> split_comma (Join l ",") = l.
Proof.
  intros Hne Hl. induction Hl as [|s l Hs Hl IH]; [done|].
  destruct l as [|s' l].
  - by apply split_comma_no_comma.
  - change (Join (s :: s' :: l) ",") with (s ++ "," ++ Join (s' :: l) ",").
    rewrite split_comma_sep by done. by rewrite IH.
Qed.

(** Reading back what [FormatUint] writes. *)
Lemma digit_ascii d : (d < 10)%N ->
  Ascii.N_of_ascii (Ascii.ascii_of_N (48 + d)) = (48 + d)%N.
Proof. intros Hd. apply Ascii.N_ascii_embedding. lia. Qed.

Lemma parse_digit d acc a0 : (d < 10)%N ->
  parse_digits (String (Ascii.ascii_of_N (48 + d)) acc) a0 = parse_digits acc (a0 * 10 + d).
Proof.
  intros Hd. simpl. rewrite digit_ascii by done.
  replace ((48 <=? 48 + d)%N && (48 + d <=? 57)%N) with true
    by (symmetry; apply andb_true_intro; split; apply N.leb_le; lia).
  f_equal. lia.
Qed.

Lemma decimal_parse fuel n acc a0 :
  (n < 10 ^ N.of_nat fuel)%N ->
  exists k, parse_digits (decimal fuel n acc) a0 = parse_digits acc (a0 * 10 ^ k + n).
Proof.
  revert n acc a0. induction fuel as [|f IH]; intros n acc a0 Hn.
  - simpl in Hn. assert (n = 0%N) as -> by lia. exists 0%N. simpl. f_equal; lia.
  - simpl. assert (Hm : (n mod 10 < 10)%N) by (apply N.mod_lt; lia).
    destruct (N.ltb_spec n 10) as [Hlt|Hge].
    + exists 1%N. rewrite parse_digit by done. rewrite N.mod_small by done.
      f_equal; lia.
    + assert (Hq : (n / 10 < 10 ^ N.of_nat f)%N).
      { apply N.Div0.div_lt_upper_bound.
        rewrite Nat2N.inj_succ, N.pow_succ_r' in Hn. lia. }
      destruct (IH (n / 10)%N (String (Ascii.ascii_of_N (48 + n mod 10)) acc) a0 Hq)
        as [k Hk].
      exists (N.succ k). rewrite Hk, parse_digit by done. f_equal.
      rewrite N.pow_succ_r'. pose proof (N.div_mod n 10). lia.
Qed.

Lemma decimal_head fuel n acc :
  exists d rest, (d < 10)%N /\
  decimal (S fuel) n acc = String (Ascii.ascii_of_N (48 + d)) rest.
Proof.
  revert n acc. induction fuel as [|f IH]; intros n acc; simpl.
  - exists (n mod 10)%N, acc. split; [apply N.mod_lt; lia|].
    by destruct (n <? 10)%N.
  - destruct (n <? 10)%N; [|apply IH].
    exists (n mod 10)%N, acc. split; [apply N.mod_lt; lia|done].
Qed.

Lemma FormatUint_bound n : (n < 10 ^ N.of_nat (S (N.to_nat (N.log2 n))))%N.
Proof.
  rewrite Nat2N.inj_succ, N2Nat.id.
  apply (N.lt_le_trans _ (2 ^ N.succ (N.log2 n))).
  - destruct (N.eq_dec n 0%N) as [->|Hn]; [simpl; lia|].
    apply N.log2_spec. lia.
  - apply N.pow_le_mono_l. lia.
Qed.

Lemma parse_FormatUint n : parse_digits (FormatUint n) 0 = Some n.
Proof.
  unfold FormatUint. destruct (decimal_parse _ n "" 0 (FormatUint_bound n)) as [k Hk].
  rewrite Hk. simpl. f_equal.
Qed.

Lemma FormatUint_head n :
  exists d rest, (d < 10)%N /\ FormatUint n = String (Ascii.ascii_of_N (48 + d)) rest.
Proof. apply decimal_head. Qed.

Lemma ParseInt_FormatUint n : ParseInt (FormatUint n) = Some (Z.of_N n).
Proof.
  destruct (FormatUint_head n) as (d & rest & Hd & Hs).
  pose proof (parse_FormatUint n) as Hp. rewrite Hs in *.
  unfold ParseInt.
  destruct (Ascii.eqb_spec (Ascii.ascii_of_N (48 + d)) "-"%char) as [Heq|_].
  - exfalso. apply (f_equal Ascii.N_of_ascii) in Heq.
    rewrite digit_ascii in Heq by done. simpl in Heq. lia.
  - by rewrite Hp.
Qed.

Lemma ParseInt_FormatInt n : ParseInt (FormatInt n) = Some n.
Proof.
  unfold FormatInt. destruct (Z.ltb_spec n 0) as [Hn|Hn].
  - destruct (FormatUint_head (Z.abs_N n)) as (d & rest & Hd & Hs).
    pose proof (parse_FormatUint (Z.abs_N n)) as Hp.
    simpl. rewrite Hs in *. rewrite Hp. simpl. f_equal.
    rewrite N2Z.inj_abs_N. lia.
  - rewrite ParseInt_FormatUint. f_equal. lia.
Qed.

(** parseConstants appends its ten constants after the existing ones,
    which it leaves untouched, under ten distinct keys; it does not look
    at what is already there, so the constants keep unique keys exactly
    when they had unique keys and none of them uses one of the ten. *)
Theorem parseConstants_keys Duration_String appState consensus constants :
  (exists news, parseConstants Duration_String appState consensus constants =
                (constants ++ news)%list /\ map key news = parsed_keys) /\
  (NoDup (map key (parseConstants Duration_String appState consensus constants)) <->
   NoDup (map key constants) /\ Forall (fun x => key x ∉ parsed_keys) constants).
Proof.
  split.
  - eexists. split; [apply parseConstants_app|apply parseConstants_new_keys].
  - rewrite parseConstants_app, map_app, parseConstants_new_keys, NoDup_app.
    pose proof parsed_keys_nodup. rewrite Forall_forall. split.
    + intros (Hnd & Hdisj & _). split; [done|].
      intros x Hx. apply Hdisj. apply list_elem_of_fmap. by exists x.
    + intros (Hnd & Hx). split; [done|]. split; [|done].
      intros k Hk. apply list_elem_of_fmap in Hk as (x & -> & Hin). by apply Hx.
Qed.

(** The [pub_key_types] constant reads back: when no earlier constant
    has its key, splitting its value at commas gives the validator public
    key types, provided there is at least one and none contains a comma;
    with no key types the value is the empty string. *)
Theorem parseConstants_pub_key_types Duration_String appState consensus constants :
  Forall (fun x => key x <> (ModuleNameValidator, "pub_key_types")) constants ->
  let v := lookup_constant (ModuleNameValidator, "pub_key_types")
             (parseConstants Duration_String appState consensus constants) in
  (Validator_PubKeyTypes consensus = [] -> v = Some "") /\
  (Validator_PubKeyTypes consensus <> [] ->
   Forall (fun s => no_comma s = true) (Validator_PubKeyTypes consensus) ->
   option_map split_comma v = Some (Validator_PubKeyTypes consensus)).
Proof.
  intros Hcs v. subst v. rewrite parseConstants_app, lookup_constant_app by done.
  change (lookup_constant (ModuleNameValidator, "pub_key_types")
            (parseConstants Duration_String appState consensus []))
    with (Some (Join (Validator_PubKeyTypes consensus) ",")).
  split.
  - intros ->. done.
  - intros Hne Hl. simpl. f_equal. by apply split_comma_Join.
Qed.

(** The other genesis parameters read back from the constants when no
    earlier constant uses one of the ten keys: the numbers parse back to
    the consensus parameters and the app state strings are stored as
    they are. *)
Theorem parseConstants_read_back Duration_String appState consensus constants :
  Forall (fun x => key x ∉ parsed_keys) constants ->
  let r := parseConstants Duration_String appState consensus constants in
  let read k := match lookup_constant k r with Some s => ParseInt s | None => None end in
  read (ModuleNameBlock, "block_max_bytes") = Some (Block_MaxBytes consensus) /\
  read (ModuleNameBlock, "block_max_gas") = Some (Block_MaxGas consensus) /\
  read (ModuleNameEvidence, "max_age_num_blocks") =
    Some (Evidence_MaxAgeNumBlocks consensus) /\
  read (ModuleNameEvidence, "max_bytes") = Some (Evidence_MaxBytes consensus) /\
  read (ModuleNameVersion, "app") = Some (Z.of_N (Version_AppVersion consensus)) /\
  lookup_constant (ModuleNameGeneric, "authority_sudo_key") r =
    Some (AuthoritySudoKey appState) /\
  lookup_constant (ModuleNameGeneric, "native_asset_base_denomination") r =
    Some (NativeAssetBaseDenomination appState) /\
  lookup_constant (ModuleNameGeneric, "ibc_sudo_address") r =
    Some (IbcSudoAddress appState).
Proof.
  intros Hcs r read. subst r read. rewrite parseConstants_app.
  assert (Hk : forall k, k ∈ parsed_keys ->
    lookup_constant k (constants ++ parseConstants Duration_String appState consensus [])%list =
    lookup_constant k (parseConstants Duration_String appState consensus [])).
  { intros k Hk. apply lookup_constant_app. by apply Forall_key_not_parsed. }
  rewrite !Hk by (apply (bool_decide_unpack _); vm_compute; reflexivity).
  split; [exact (ParseInt_FormatInt _)|].
  split; [exact (ParseInt_FormatInt _)|].
  split; [exact (ParseInt_FormatInt _)|].
  split; [exact (ParseInt_FormatInt _)|].
  split; [exact (ParseInt_FormatUint _)|].
  repeat split.
Qed.
End GenesisFacts.

(* ------------------------------------------------------------------ *)
(** ** Witnesses: the theorems at concrete inputs *)

(** Two calls: hash 01 twice in the first (with hash 02), once more in
    the second, on an empty table. *)
Lemma SaveAddresses_dedup_idempotent_witness :
  let tbl := mkAddressTable [] 1 in
  let a1 := Address.mk 0 10000 [Byte.x01] 0 0 0 in
  let a2 := Address.mk 0 10001 [Byte.x01] 0 0 0 in
  let b := Address.mk 0 10000 [Byte.x02] 0 0 0 in
  let bs := [[a1; b; a2]; [a2]] in
  let H := [Byte.x01] in
  NoDup (hashes tbl.(rows)) /\
  let '(tbl', outs) := SaveAddressesCalls tbl bs in
  ((H ∈ hashes tbl.(rows) \/ exists b, b ∈ bs /\ H ∈ hashes b) ->
   exists r,
     List.filter (fun x => bool_decide (Address.Hash x = H)) tbl'.(rows) = [r] /\
     forall o c, o ∈ outs -> c ∈ o.1 -> Address.Hash c = H ->
       Address.Id c = Address.Id r) /\
  (forall i b o, bs !! i = Some b -> outs !! i = Some o ->
     let seen := hashes tbl.(rows) ++ concat (map hashes (take i bs)) in
     Forall2 (fun c c' => c' = Address.with_id c (Address.Id c')) b o.1 /\
     o.2 = N.of_nat (length (fresh_hashes seen (hashes b))) /\
     (H ∈ fresh_hashes seen (hashes b) <-> H ∈ hashes b /\ (H ∉ seen)) /\
     (b <> [] -> Forall (fun c => Address.Hash c = H) b ->
        o.2 = if decide (H ∈ seen) then 0%N else 1%N)).
Proof.
  intros tbl a1 a2 b bs H.
  split; [constructor|].
  exact (SaveAddresses_dedup_idempotent tbl bs H (NoDup_nil_2)).
Defined.

(** Link rows of each kind saved at height 7316 on top of one at 7315. *)
Lemma RollbackLinks_symmetry_witness :
  let S1 := [RollupAction.mk 1 1 7315] in
  let b1 := [RollupAction.mk 1 2 7316; RollupAction.mk 2 3 7316] in
  let S3 := [RollupAddress.mk 1 1 7315] in
  let b3 := [RollupAddress.mk 1 2 7316] in
  Forall (fun r => height_of r <> 7316) S1 /\ Forall (fun r => height_of r = 7316) b1 /\
  Forall (fun r => height_of r <> 7316) S3 /\ Forall (fun r => height_of r = 7316) b3 /\
  match RollbackRollupActions (SaveRollupActions S1 b1) 7316 with
  | inr (removed, rest) =>
      removed = b1 /\ length removed = length b1 /\ rest = S1 /\
      SaveRollupActions rest b1 = SaveRollupActions S1 b1
  | inl _ => False
  end /\
  match RollbackRollupAddresses (SaveRollupAddresses S3 b3) 7316 with
  | inr rest =>
      rest = S3 /\
      (length (SaveRollupAddresses S3 b3) - length rest = length b3)%nat /\
      SaveRollupAddresses rest b3 = SaveRollupAddresses S3 b3
  | inl _ => False
  end.
Proof.
  intros S1 b1 S3 b3.
  assert (H1 : Forall (fun r => height_of r <> 7316) S1)
    by (unfold S1; constructor; [cbv; discriminate|constructor]).
  assert (H2 : Forall (fun r => height_of r = 7316) b1)
    by (unfold b1; repeat constructor).
  assert (H3 : Forall (fun r => height_of r <> 7316) S3)
    by (unfold S3; constructor; [cbv; discriminate|constructor]).
  assert (H4 : Forall (fun r => height_of r = 7316) b3)
    by (unfold b3; repeat constructor).
  destruct (RollbackLinks_symmetry 7316) as (Hra & _ & Hrd).
  split; [exact H1|]. split; [exact H2|]. split; [exact H3|]. split; [exact H4|].
  split; [exact (Hra S1 b1 H1 H2)|exact (Hrd S3 b3 H3 H4)].
Defined.

(** One rollup-address link saved at height 7316 on an empty table: its
    rollback deletes it but returns no rows, only the (empty) table,
    whereas the rollback of a rollup-action link returns the deleted
    link. *)
Lemma RollbackRollupAddresses_returns_no_rows :
  RollbackRollupAddresses (SaveRollupAddresses [] [RollupAddress.mk 1 2 7316]) 7316 =
    inr [] /\
  RollbackRollupActions (SaveRollupActions [] [RollupAction.mk 1 2 7316]) 7316 =
    inr ([RollupAction.mk 1 2 7316], []).
Proof. split; reflexivity. Qed.

(** The fixtures of TestUpdateAddresses and TestUpdateRollup. *)
Lemma Update_inverse_restores_witness :
  let row := Address.mk 1 7000 [Byte.x01] 1 1 2 in
  let tbl := mkAddressTable [row] 2 in
  let u := Address.mk 1 0 [] 10 1 1 in
  let tbl' := mkAddressTable [Address.mk 1 7000 [Byte.x01] 10 2 3] 2 in
  let rtbl := [Rollup.mk 1 [Byte.x01] 7316 1 112 0] in
  let ru := Rollup.mk 1 [] 0 1 100 0 in
  let rtbl' := [Rollup.mk 1 [Byte.x01] 7316 2 212 0] in
  UpdateAddresses tbl [u] = inr tbl' /\ UpdateRollups rtbl [ru] = inr rtbl' /\
  UpdateAddresses tbl' [inverse_address_update u row] = inr tbl /\
  UpdateRollups rtbl' [inverse_rollup_update ru] = inr rtbl.
Proof.
  intros row tbl u tbl' rtbl ru rtbl'.
  assert (Hu : UpdateAddresses tbl [u] = inr tbl') by reflexivity.
  assert (Hr : UpdateRollups rtbl [ru] = inr rtbl') by reflexivity.
  split; [exact Hu|]. split; [exact Hr|].
  apply (Update_inverse_restores tbl tbl' u row rtbl rtbl' ru);
    [apply NoDup_singleton|left; reflexivity|reflexivity|exact Hu|exact Hr].
Defined.

(** The replayed address of TestSaveAddresses: same hash, height + 1. *)
Lemma SaveAddresses_first_seen_wins_witness :
  let r := Address.mk 3 10002 [Byte.x03] 0 0 0 in
  let c := Address.mk 0 10003 [Byte.x03] 0 0 0 in
  let tbl := mkAddressTable [r] 6 in
  NoDup (hashes tbl.(rows)) /\ r ∈ tbl.(rows) /\ c ∈ [c] /\
  Address.Hash c = Address.Hash r /\ Address.Height r < Address.Height c /\
  let '(tbl', out, n) := SaveAddresses tbl [c] in
  find_by_hash tbl'.(rows) (Address.Hash r) = Some r /\
  List.filter (fun x => bool_decide (Address.Hash x = Address.Hash r)) tbl'.(rows) = [r] /\
  Address.with_id c (Address.Id r) ∈ out /\
  (forall c', c' ∈ out -> Address.Hash c' = Address.Hash r ->
     Address.Id c' = Address.Id r) /\
  n = (SaveAddresses tbl
         (List.filter (fun x => negb (bool_decide (Address.Hash x = Address.Hash r))) [c])).2.
Proof.
  intros r c tbl.
  assert (H1 : NoDup (hashes tbl.(rows))) by apply NoDup_singleton.
  assert (H2 : r ∈ tbl.(rows)) by constructor.
  assert (H3 : c ∈ [c]) by constructor.
  assert (H4 : Address.Hash c = Address.Hash r) by reflexivity.
  assert (H5 : Address.Height r < Address.Height c) by (simpl; lia).
  repeat (split; [assumption|]).
  exact (SaveAddresses_first_seen_wins tbl [c] r c H1 H2 H3 H4 H5).
Defined.

(** The scenario of the claim: a row with actionsCount 1 and
    signedTxCount 2, updated by +1, +1 and nonce 10; and the rollup of
    TestUpdateRollup. *)
Lemma Update_semantics_witness :
  let x := Address.mk 1 7000 [Byte.x01] 1 1 2 in
  let tbl := mkAddressTable [x] 2 in
  let u := Address.mk 1 0 [] 10 1 1 in
  let rx := Rollup.mk 1 [Byte.x01] 7316 1 112 0 in
  let ru := Rollup.mk 1 [] 0 1 100 0 in
  (exists tbl', UpdateAddresses tbl [u] = inr tbl' /\
     List.filter (fun y => Address.Id y =? Address.Id u)%N tbl'.(rows) =
       [Address.mk 1 7000 [Byte.x01] 10 2 3] /\
     List.filter (fun y => negb (Address.Id y =? Address.Id u))%N tbl'.(rows) =
       List.filter (fun y => negb (Address.Id y =? Address.Id u))%N tbl.(rows)) /\
  (exists rtbl', UpdateRollups [rx] [ru] = inr rtbl' /\
     List.filter (fun y => Rollup.Id y =? Rollup.Id ru)%N rtbl' =
       [Rollup.mk 1 [Byte.x01] 7316 2 212 0] /\
     List.filter (fun y => negb (Rollup.Id y =? Rollup.Id ru))%N rtbl' =
       List.filter (fun y => negb (Rollup.Id y =? Rollup.Id ru))%N [rx]).
Proof.
  intros x tbl u rx ru.
  exact (Update_semantics tbl u x [rx] ru rx (NoDup_singleton _) (or_introl eq_refl)
           eq_refl (NoDup_singleton _) (or_introl eq_refl) eq_refl).
Defined.

(** A failing call after one successful call, before any flush; a flush
    follows the failure. *)
Lemma unit_of_work_atomic_until_flush_witness :
  let pre := [Call (fun d : list nat => inr (1%nat :: d))] in
  let op := fun _ : list nat => inl ValidationError in
  forallb (is_call (list nat)) pre = true /\
  aborted (list nat) (run (list nat) (BeginTransaction (list nat) []) (pre ++ [Call op])).2
    = true /\
  unit_of_work (list nat) [] (pre ++ Call op :: [Flush]) = [].
Proof.
  intros pre op.
  assert (H1 : forallb (is_call (list nat)) pre = true) by reflexivity.
  assert (H2 : aborted (list nat)
                 (run (list nat) (BeginTransaction (list nat) []) (pre ++ [Call op])).2
               = true) by reflexivity.
  split; [exact H1|]. split; [exact H2|].
  exact (proj1 (unit_of_work_atomic_until_flush (list nat) [] pre [Flush] op H1 H2)).
Defined.


(** An unknown timeframe, and a valid request on an empty database. *)
Lemma Series_contract_witness :
  (exists e, Stats.Series "week" "tps" (Stats.NewSeriesRequest 0 0) (fun _ => []) =
             (([], Some e), [])) /\
  exists view, Stats.series_view "hour" = Some view /\
  let '((resp, err), qs) :=
    Stats.Series "hour" "tps" (Stats.NewSeriesRequest 1700000000 0) (fun _ => []) in
  err = None /\ length qs = 1%nat /\ (length resp <= 100)%nat /\
  map Stats.Time resp =
    map Stats.ts (firstn 100 (List.filter
                   (Stats.in_range (Stats.NewSeriesRequest 1700000000 0)) [])).
Proof.
  destruct (StatsFacts.Series_contract (fun _ => []) "week" "tps"
              (Stats.NewSeriesRequest 0 0) 1) as [Hbad _].
  destruct (StatsFacts.Series_contract (fun _ => []) "hour" "tps"
              (Stats.NewSeriesRequest 1700000000 0) 1) as (_ & _ & Hok & _).
  split.
  - apply Hbad. left. simpl. intros [H|[H|[H|[]]]]; discriminate.
  - apply Hok; simpl; tauto.
Defined.

Section ExtraWitnesses.
Local Open Scope string_scope.

(** A tps series on a one-row hourly view: value, max and min columns. *)
Lemma Series_columns_read_witness :
  let db := fun _ : Stats.View =>
    [Stats.mkViewRow 1700000000 1 [("tps", "5"); ("tps_max", "9"); ("tps_min", "1")]] in
  let req := Stats.NewSeriesRequest 0 0 in
  In "hour" Stats.timeframes /\ In "tps" Stats.series_names /\
  exists v, Stats.series_view "hour" = Some v /\
  let resp := (Stats.Series "hour" "tps" req db).1.1 in
  let rows := firstn 100 (List.filter (Stats.in_range req) (db v)) in
  map Stats.Value resp = map (fun r => Stats.col_value r "tps") rows /\
  (if existsb (String.eqb "tps") Stats.minmax_series
   then map Stats.Max resp = map (fun r => Stats.col_value r ("tps" ++ "_max")) rows /\
        map Stats.Min resp = map (fun r => Stats.col_value r ("tps" ++ "_min")) rows
   else Forall (fun i => Stats.Max i = "" /\ Stats.Min i = "") resp).
Proof.
  intros db req. split; [simpl; tauto|]. split; [simpl; tauto|].
  apply (StatsMore.Series_columns_read db "hour" "tps" req); simpl; tauto.
Defined.

(** A size series of rollup 1 on a daily view holding two rollups. *)
Lemma RollupSeries_columns_read_witness :
  let db := fun _ : Stats.View =>
    [Stats.mkViewRow 1700000000 1 [("size", "10")];
     Stats.mkViewRow 1700000000 2 [("size", "20")]] in
  let req := Stats.NewSeriesRequest 0 0 in
  In "day" Stats.timeframes /\ In "size" Stats.rollup_series_names /\
  exists v, Stats.rollup_series_view "day" = Some v /\
  let resp := (Stats.RollupSeries 1 "day" "size" req db).1.1 in
  map Stats.Value resp =
    map (fun r => Stats.col_value r "size")
      (firstn 100 (List.filter (fun r => (Stats.rollup_id r =? 1)%N && Stats.in_range req r)
                     (db v))) /\
  Forall (fun i => Stats.Max i = "" /\ Stats.Min i = "") resp.
Proof.
  intros db req. split; [simpl; tauto|]. split; [simpl; tauto|].
  apply (StatsMore.RollupSeries_columns_read db 1 "day" "size" req); simpl; tauto.
Defined.

(** The page size on a monthly view with two matching rows. *)
Lemma Series_page_size_witness :
  let db := fun _ : Stats.View =>
    [Stats.mkViewRow 1700000000 1 [("fee", "7")]; Stats.mkViewRow 1700003600 1 []] in
  let req := Stats.NewSeriesRequest 1 0 in
  In "month" Stats.timeframes /\
  (In "fee" Stats.series_names ->
     exists v, Stats.series_view "month" = Some v /\
     length (Stats.Series "month" "fee" req db).1.1 =
       Nat.min 100 (length (List.filter (Stats.in_range req) (db v)))) /\
  (In "fee" Stats.rollup_series_names ->
     exists v, Stats.rollup_series_view "month" = Some v /\
     length (Stats.RollupSeries 1 "month" "fee" req db).1.1 =
       Nat.min 100 (length (List.filter
                     (fun r => (Stats.rollup_id r =? 1)%N && Stats.in_range req r) (db v)))).
Proof.
  intros db req. split; [simpl; tauto|].
  apply (StatsMore.Series_page_size db "month" "fee" req 1). simpl; tauto.
Defined.

(** [from = to]: the window [from, to) is empty. *)
Lemma Series_empty_window_witness :
  let db := fun _ : Stats.View => [Stats.mkViewRow 1700000000 1 [("tps", "5")]] in
  0 < 1700000000 /\ 1700000000 <= 1700000000 /\
  (Stats.Series "hour" "tps" (Stats.NewSeriesRequest 1700000000 1700000000) db).1.1 = [] /\
  (Stats.RollupSeries 1 "hour" "size"
     (Stats.NewSeriesRequest 1700000000 1700000000) db).1.1 = [].
Proof.
  intros db. split; [lia|]. split; [lia|].
  apply (StatsMore.Series_empty_window db "hour" "tps" _ _ 1); lia.
Defined.

(** Identity scopes; two actions at height 5, one of them of an unstored
    transaction. *)
Lemma ByBlock_spec_witness :
  let scoped := fun (A : Type) (_ : ActionQueries.Scopes) (l : list A) => l in
  let txs := [Tx.mk 1 5 0 0 "success" [Byte.x0a] 1] in
  let actions := [Action.mk 1 5 0 0 "transfer" 1 ""; Action.mk 2 5 0 1 "transfer" 2 "";
                  Action.mk 3 6 0 0 "transfer" 1 ""] in
  NoDup (map Tx.Id txs) /\
  let res := ActionQueries.ByBlock scoped actions txs 5 10 0 in
  map ActionQueries.awt_Action res ≡ₚ
    scoped _ (ActionQueries.mkScopes None 10 0)
      (List.filter (fun a => (Action.Height a =? 5)%Z) actions) /\
  Forall (fun o =>
    In (ActionQueries.awt_Action o) actions /\
    Action.Height (ActionQueries.awt_Action o) = 5 /\
    (forall t, In t txs -> Tx.Id t = Action.TxId (ActionQueries.awt_Action o) ->
       ActionQueries.awt_TxHash o = Some (Tx.Hash t)) /\
    ((forall t, In t txs -> Tx.Id t <> Action.TxId (ActionQueries.awt_Action o)) ->
       ActionQueries.awt_TxHash o = None)) res.
Proof.
  intros scoped txs actions.
  assert (Hnd : NoDup (map Tx.Id txs)) by (repeat constructor; set_solver).
  split; [exact Hnd|].
  apply (ActionQueriesFacts.ByBlock_spec scoped (fun A s l x H => H)). exact Hnd.
Defined.

(** Identity scopes; actions of two transactions. *)
Lemma ByTxId_spec_witness :
  let scoped := fun (A : Type) (_ : ActionQueries.Scopes) (l : list A) => l in
  let actions := [Action.mk 1 5 0 0 "transfer" 1 ""; Action.mk 2 5 0 1 "transfer" 2 ""] in
  (forall A s (l : list A) x, In x (scoped A s l) -> In x l) /\
  Forall (fun a => In a actions /\ Action.TxId a = 1%N)
    (ActionQueries.ByTxId scoped actions 1 10 0).
Proof.
  intros scoped actions.
  assert (Hs : forall A s (l : list A) x, In x (scoped A s l) -> In x l)
    by (intros A s l x H; exact H).
  split; [exact Hs|]. exact (ActionQueriesFacts.ByTxId_spec scoped Hs actions 1 10 0).
Defined.

(** Identity scopes, a mask with one bit naming transfers; address 1 has
    a transfer and a sequence action, address 2 a transfer. *)
Lemma ByAddress_spec_witness :
  let scoped := fun (A : Type) (_ : ActionQueries.Scopes) (l : list A) => l in
  let mask_strings := fun b : N => if (b =? 1)%N then ["transfer"%string] else [] in
  let txs := [Tx.mk 1 5 0 0 "success" [Byte.x0a] 1] in
  let actions := [Action.mk 1 5 0 0 "transfer" 1 ""; Action.mk 2 5 0 1 "sequence" 1 ""] in
  let rows := [ActionQueries.mkAddressActionRow 1 1 1 "transfer" 5 0;
               ActionQueries.mkAddressActionRow 1 2 1 "sequence" 5 0;
               ActionQueries.mkAddressActionRow 2 1 1 "transfer" 5 0] in
  let filters := ActionQueries.mkAddressActionsFilter 10 0 ActionQueries.SortOrderAsc
                   (ActionQueries.mkActionTypeMask 1) in
  NoDup (map Tx.Id txs) /\ NoDup (map Action.Id actions) /\
  let res := ActionQueries.ByAddress scoped mask_strings rows actions txs 1 filters in
  map ActionQueries.aao_Row res ≡ₚ
    ActionQueries.by_address_query scoped mask_strings rows 1 filters /\
  Forall (fun o =>
    let r := ActionQueries.aao_Row o in
    In r rows /\ ActionQueries.aa_AddressId r = 1%N /\
    ((0 < ActionQueries.Bits (ActionQueries.ActionTypes filters))%N ->
       In (ActionQueries.aa_ActionType r)
          (mask_strings (ActionQueries.Bits (ActionQueries.ActionTypes filters)))) /\
    (forall a, In a actions -> Action.Id a = ActionQueries.aa_ActionId r ->
       ActionQueries.aao_Action o = Some a) /\
    ((forall a, In a actions -> Action.Id a <> ActionQueries.aa_ActionId r) ->
       ActionQueries.aao_Action o = None) /\
    (forall t, In t txs -> Tx.Id t = ActionQueries.aa_TxId r ->
       ActionQueries.aao_TxHash o = Some (Tx.Hash t)) /\
    ((forall t, In t txs -> Tx.Id t <> ActionQueries.aa_TxId r) ->
       ActionQueries.aao_TxHash o = None)) res.
Proof.
  intros scoped mask_strings txs actions rows filters.
  assert (Ht : NoDup (map Tx.Id txs)) by (repeat constructor; set_solver).
  assert (Ha : NoDup (map Action.Id actions)) by (repeat constructor; set_solver).
  split; [exact Ht|]. split; [exact Ha|].
  apply (ActionQueriesFacts.ByAddress_spec scoped (fun A s l x H => H)); [exact Ht|exact Ha].
Defined.

(** Identity scopes; rollup 1 has an action whose transaction is not
    stored. *)
Lemma ByRollup_spec_witness :
  let scoped := fun (A : Type) (_ : ActionQueries.Scopes) (l : list A) => l in
  let txs := [Tx.mk 1 5 0 0 "success" [Byte.x0a] 1] in
  let actions := [Action.mk 1 5 0 0 "sequence" 1 ""; Action.mk 2 5 0 1 "sequence" 2 ""] in
  let rows := [ActionQueries.mkRollupActionRow 1 1 1 5 0;
               ActionQueries.mkRollupActionRow 1 2 2 5 0;
               ActionQueries.mkRollupActionRow 2 1 1 5 0] in
  NoDup (map Tx.Id txs) /\ NoDup (map Action.Id actions) /\
  let res := ActionQueries.ByRollup scoped rows actions txs 1 10 0
               ActionQueries.SortOrderDesc in
  map ActionQueries.rao_Row res ≡ₚ
    ActionQueries.by_rollup_query scoped rows 1 10 0 ActionQueries.SortOrderDesc /\
  Forall (fun o =>
    let r := ActionQueries.rao_Row o in
    In r rows /\ ActionQueries.ra_RollupId r = 1%N /\
    (forall a, In a actions -> Action.Id a = ActionQueries.ra_ActionId r ->
       ActionQueries.rao_Action o = Some a) /\
    ((forall a, In a actions -> Action.Id a <> ActionQueries.ra_ActionId r) ->
       ActionQueries.rao_Action o = None) /\
    (forall t, In t txs -> Tx.Id t = ActionQueries.ra_TxId r ->
       ActionQueries.rao_TxHash o = Some (Tx.Hash t)) /\
    ((forall t, In t txs -> Tx.Id t <> ActionQueries.ra_TxId r) ->
       ActionQueries.rao_TxHash o = None)) res.
Proof.
  intros scoped txs actions rows.
  assert (Ht : NoDup (map Tx.Id txs)) by (repeat constructor; set_solver).
  assert (Ha : NoDup (map Action.Id actions)) by (repeat constructor; set_solver).
  split; [exact Ht|]. split; [exact Ha|].
  apply (ActionQueriesFacts.ByRollup_spec scoped (fun A s l x H => H)); [exact Ht|exact Ha].
Defined.

(** A genesis with two validator key types and no earlier constants. *)
Lemma parseConstants_pub_key_types_witness :
  let D := fun _ : Z => "48h0m0s"%string in
  let a := Genesis.mkAppState "astria1sudo" "nria" "astria1ibc" in
  let c := Genesis.mkConsensusParams 22020096 (-1) 100000 172800000000000 1048576
             ["ed25519"; "secp256k1"] 1 in
  Forall (fun s => Genesis.no_comma s = true) (Genesis.Validator_PubKeyTypes c) /\
  let v := GenesisFacts.lookup_constant (Genesis.ModuleNameValidator, "pub_key_types"%string)
             (Genesis.parseConstants D a c []) in
  (Genesis.Validator_PubKeyTypes c = [] -> v = Some ""%string) /\
  (Genesis.Validator_PubKeyTypes c <> [] ->
   Forall (fun s => Genesis.no_comma s = true) (Genesis.Validator_PubKeyTypes c) ->
   option_map Genesis.split_comma v = Some (Genesis.Validator_PubKeyTypes c)).
Proof.
  intros D a c. split; [repeat constructor|].
  apply GenesisFacts.parseConstants_pub_key_types. constructor.
Defined.

(** The same genesis, one unrelated earlier constant. *)
Lemma parseConstants_read_back_witness :
  let D := fun _ : Z => "48h0m0s"%string in
  let a := Genesis.mkAppState "astria1sudo" "nria" "astria1ibc" in
  let c := Genesis.mkConsensusParams 22020096 (-1) 100000 172800000000000 1048576
             ["ed25519"] 1 in
  let cs := [Genesis.mkConstant Genesis.ModuleNameGeneric "chain_id" "astria"] in
  Forall (fun x => Genesis.key x ∉ Genesis.parsed_keys) cs /\
  let r := Genesis.parseConstants D a c cs in
  let read k := match GenesisFacts.lookup_constant k r with
                | Some s => Genesis.ParseInt s | None => None end in
  read (Genesis.ModuleNameBlock, "block_max_bytes"%string) = Some 22020096 /\
  read (Genesis.ModuleNameBlock, "block_max_gas"%string) = Some (-1) /\
  read (Genesis.ModuleNameEvidence, "max_age_num_blocks"%string) = Some 100000 /\
  read (Genesis.ModuleNameEvidence, "max_bytes"%string) = Some 1048576 /\
  read (Genesis.ModuleNameVersion, "app"%string) = Some 1 /\
  GenesisFacts.lookup_constant (Genesis.ModuleNameGeneric, "authority_sudo_key"%string) r =
    Some "astria1sudo"%string /\
  GenesisFacts.lookup_constant
    (Genesis.ModuleNameGeneric, "native_asset_base_denomination"%string) r =
    Some "nria"%string /\
  GenesisFacts.lookup_constant (Genesis.ModuleNameGeneric, "ibc_sudo_address"%string) r =
    Some "astria1ibc"%string.
Proof.
  intros D a c cs.
  assert (Hcs : Forall (fun x => Genesis.key x ∉ Genesis.parsed_keys) cs).
  { constructor; [|constructor]. apply (bool_decide_unpack _). vm_compute. reflexivity. }
  split; [exact Hcs|].
  exact (GenesisFacts.parseConstants_read_back D a c cs Hcs).
Defined.
End ExtraWitnesses.
